(** * The route-matrix proxy and the bearer-token check

    A shallow embedding of two server-side modules of the gas-stations back
    office:

    - [src/app/api/route-matrix/route.ts]: the [POST] handler that validates a
      request, answers from a process-wide cache when it can, and otherwise
      reshapes the coordinates into the Routes API wire format, calls the API
      and caches a successful answer;
    - [src/lib/auth/serverAuth.ts]: [verifyAuthToken], which reads the
      [Authorization] header and asks the Firebase verifier for the user id.

    Conventions of the embedding.

    - JavaScript strings are [string]; [toUpperCase] acts on the ASCII
      letters, and what is stated of the case or the white space of a text
      is stated of ASCII text.  A value of type [string | undefined] is an
      [option string]:
      the request body is a JSON object whose five fields, when present, are
      strings.
    - A promise that is awaited is an [awaited A]: it resolves with a value or
      rejects with the message of the error.
    - The handler threads the cache and a trace of its effects (cache reads,
      outbound calls, cache writes) through a small monad with early [return]
      and [throw]; [try ... catch] turns what was thrown into a response.
    - [Date.now()], [process.env], [fetch] and the Firebase verifier belong to
      the environment and are read from an explicit record.
    - Console output is not modelled.

    Further on, the same files are followed past these two functions:
    [cleanupCache], [verifyAuthTokenWithClaims], [isAdmin] and the
    [useArchiveStation] hook, and, from
    [src/components/stations/StationForm.tsx], the suggestion filter, the
    types on offer for an autorisation and the date field. *)

From Stdlib Require Import Ascii.
From stdpp Require Import gmap strings list pretty.

#[global] Set Warnings "-register-all".

(* ===================================================================== *)
(** * JavaScript values                                                    *)
(* ===================================================================== *)

Module JS.

(** An awaited promise. *)
Inductive awaited (A : Type) : Type :=
  | Resolved (a : A)
  | Rejected (message : string).
Arguments Resolved {A} a.
Arguments Rejected {A} message.

#[global] Instance awaited_ret : MRet awaited := fun _ a => Resolved a.
#[global] Instance awaited_bind : MBind awaited := fun _ _ k p =>
  match p with
  | Resolved a => k a
  | Rejected message => Rejected message
  end.

(** The result of [Number(s)] on a string.  The double itself is left
    symbolic: two numbers of the model that are equal denote the same
    double. *)
Inductive number : Type :=
  | Number (s : string).

(** A parsed JSON document, as [JSON.parse] and [Response.json()] return it.
    Numbers are restricted to the integers; an object is the list of its own
    properties. *)
Inductive json : Type :=
  | JNull
  | JBool (b : bool)
  | JNum (n : Z)
  | JStr (s : string)
  | JArr (items : list json)
  | JObj (props : list (string * json)).

(** [if (v)]: [null], [false], [0] and the empty string are falsy. *)
Definition truthy (v : json) : bool :=
  match v with
  | JNull => false
  | JBool b => b
  | JNum n => negb (n =? 0)%Z
  | JStr s => negb (String.eqb s "")
  | JArr _ | JObj _ => true
  end.

(** [if (s)] for [s : string | undefined]. *)
Definition truthy_string (v : option string) : bool :=
  match v with
  | None => false
  | Some s => negb (String.eqb s "")
  end.

(** Own property of an object; [None] is [undefined]. *)
Fixpoint assoc (name : string) (props : list (string * json)) : option json :=
  match props with
  | [] => None
  | (k, v) :: rest => if String.eqb k name then Some v else assoc name rest
  end.

(** [v.name] for a JSON value that is not [null]: the properties searched
    for below ([error], [message]) exist on objects only. *)
Definition property (name : string) (v : json) : option json :=
  match v with
  | JObj props => assoc name props
  | _ => None
  end.

(** [v.name], which throws a [TypeError] on [null]. *)
Definition get (name : string) (v : json) : awaited (option json) :=
  match v with
  | JNull =>
      Rejected ("Cannot read properties of null (reading '" +:+ name +:+ "')")
  | _ => Resolved (property name v)
  end.

(** [v?.name] for [v : json | undefined]. *)
Definition get_optional (name : string) (v : option json) : option json :=
  match v with
  | None | Some JNull => None
  | Some o => property name o
  end.

(** [a || fallback] where the left operand may be [undefined]. *)
Definition or_else (v : option json) (fallback : json) : json :=
  match v with
  | Some a => if truthy a then a else fallback
  | None => fallback
  end.

Definition join (sep : string) (pieces : list string) : string :=
  match pieces with
  | [] => ""
  | p :: rest => fold_left (fun acc q => acc +:+ sep +:+ q) rest p
  end.

(** The string a template literal puts in place of [${v}].  An array is
    joined with commas, [null] elements giving the empty string; an object
    gives ["[object Object]"], unless it has an own [toString] property,
    which is not callable and makes the conversion throw. *)
Fixpoint ToString (v : json) : awaited string :=
  match v with
  | JNull => Resolved "null"
  | JBool true => Resolved "true"
  | JBool false => Resolved "false"
  | JNum n => Resolved (pretty n)
  | JStr s => Resolved s
  | JArr items =>
      let element (x : json) : awaited string :=
        match x with JNull => Resolved "" | _ => ToString x end in
      pieces ← (fix each (l : list json) : awaited (list string) :=
                  match l with
                  | [] => Resolved []
                  | x :: rest =>
                      p ← element x; ps ← each rest; mret (p :: ps)
                  end) items;
      mret (join "," pieces)
  | JObj props =>
      match assoc "toString" props with
      | Some _ => Rejected "Cannot convert object to primitive value"
      | None => Resolved "[object Object]"
      end
  end.

(** [String.prototype.split] with a separator that is not empty.  [skip]
    counts the characters of a separator found one step earlier that are
    still to be passed over; the head of the result is the piece being
    read. *)
Fixpoint split_from (sep : string) (skip : nat) (s : string) : list string :=
  match s with
  | EmptyString => [""]
  | String c rest =>
      match skip with
      | S k => split_from sep k rest
      | O =>
          if String.prefix sep s
          then "" :: split_from sep (String.length sep - 1) rest
          else
            match split_from sep 0 rest with
            | piece :: pieces => String c piece :: pieces
            | [] => [String c ""]
            end
      end
  end.

Definition split (sep s : string) : list string := split_from sep 0 s.

(** [v.split(sep)] for [v : string | undefined]. *)
Definition split_method (v : option string) (sep : string)
  : awaited (list string) :=
  match v with
  | Some s => Resolved (split sep s)
  | None => Rejected "Cannot read properties of undefined (reading 'split')"
  end.

(** [`${v}`] for [v : string | undefined]. *)
Definition template (v : option string) : string :=
  match v with
  | Some s => s
  | None => "undefined"
  end.

(** [s.toUpperCase()] on a text of ASCII characters, where it changes the
    letters a-z and nothing else.  Beyond ASCII the mapping follows the
    Unicode case tables, which this development does not hold: what is
    stated of an upper-cased text is stated of ASCII text. *)
Definition upper (c : ascii) : ascii :=
  let n := nat_of_ascii c in
  if (97 <=? n)%nat && (n <=? 122)%nat then ascii_of_nat (n - 32) else c.

Fixpoint toUpperCase (s : string) : string :=
  match s with
  | EmptyString => EmptyString
  | String c rest => String (upper c) (toUpperCase rest)
  end.

End JS.
Export JS.

(** The texts on which the string functions of this development are those of
    JavaScript character by character: a [string] is a sequence of bytes, a
    JavaScript string one of UTF-16 code units, and the two agree, with the
    case and white-space tables, on ASCII. *)
Module PlainText.

Definition isASCII (c : ascii) : bool := (nat_of_ascii c <? 128)%nat.

Fixpoint asciiText (s : string) : bool :=
  match s with
  | EmptyString => true
  | String c rest => isASCII c && asciiText rest
  end.

Fixpoint mapChars (f : ascii → ascii) (s : string) : string :=
  match s with
  | EmptyString => EmptyString
  | String c rest => String (f c) (mapChars f rest)
  end.

End PlainText.

(* ===================================================================== *)
(** * src/app/api/route-matrix/route.ts                                    *)
(* ===================================================================== *)

Module RouteMatrix.

Definition MAX_DESTINATIONS : Z := 25.
Definition CACHE_TTL_MS : Z := 1000 * 60 * 5.

Record CacheEntry : Type := { data : json; timestamp : Z }.

(** ** The wire format of the Routes API *)

Record LatLng : Type := { latitude : option number; longitude : option number }.
Record Location : Type := { latLng : LatLng }.
Record Waypoint : Type := { location : Location }.
Record RouteMatrixPoint : Type := { waypoint : Waypoint }.

Module Wire.
Record RequestBody : Type := {
  origins : list RouteMatrixPoint;
  destinations : list RouteMatrixPoint;
  travelMode : string;
  languageCode : string;
  units : string
}.
End Wire.

(** The argument of [fetch]. *)
Record FetchCall : Type := {
  url : string;
  method : string;
  headers : list (string * string);
  body : Wire.RequestBody
}.

(** What [fetch] resolves with: the status line and the promise of
    [response.json()]. *)
Record UpstreamResponse : Type := {
  upstream_status : Z;
  upstream_json : awaited json
}.

Definition ok (r : UpstreamResponse) : bool :=
  (200 <=? upstream_status r)%Z && (upstream_status r <=? 299)%Z.

(** ** The inbound request and the response *)

(** The fields destructured from the body; [None] is a field left out. *)
Record Body : Type := {
  origins : option string;
  destinations : option string;
  mode : option string;
  units : option string;
  language : option string
}.

Record Request : Type := { request_json : awaited Body }.

Record Response : Type := { status : Z; payload : json }.

Definition error_object (message : string) : json :=
  JObj [("error", JStr message)].

Definition dquote : string := String (ascii_of_nat 34) "".

(** [NextResponse.json(value, { status })].  The [Response] constructor
    refuses a status outside 200..599 and a body with a null-body status. *)
Definition NextResponse_json (value : json) (code : Z) : awaited Response :=
  if negb ((200 <=? code)%Z && (code <=? 599)%Z) then
    Rejected ("init[" +:+ dquote +:+ "status" +:+ dquote
              +:+ "] must be in the range of 200 to 599, inclusive.")
  else if (code =? 204)%Z || (code =? 205)%Z || (code =? 304)%Z then
    Rejected ("Response constructor: Invalid response status code "
              +:+ pretty code)
  else Resolved {| status := code; payload := value |}.

(** ** The environment of one call *)

Record Env : Type := {
  GOOGLE_MAPS_API_KEY : option string;       (* process.env *)
  now_at_lookup : Z;                         (* Date.now() before the lookup *)
  fetch : FetchCall → awaited UpstreamResponse;
  now_at_store : Z                           (* Date.now() at cache.set *)
}.

(** ** The handler monad: cache, trace, early return, exceptions *)

Inductive event : Type :=
  | CacheGet (key : string)
  | Fetch (call : FetchCall)
  | CacheSet (key : string) (entry : CacheEntry).

Record world : Type := {
  cache : gmap string CacheEntry;
  trace : list event
}.

Inductive completion (A : Type) : Type :=
  | Normal (a : A)
  | Returned (r : Response)
  | Thrown (message : string).
Arguments Normal {A} a.
Arguments Returned {A} r.
Arguments Thrown {A} message.

Definition handler (A : Type) : Type := world → completion A * world.

#[global] Instance handler_ret : MRet handler := fun _ a w => (Normal a, w).
#[global] Instance handler_bind : MBind handler := fun _ _ k h w =>
  match h w with
  | (Normal a, w') => k a w'
  | (Returned r, w') => (Returned r, w')
  | (Thrown message, w') => (Thrown message, w')
  end.

Definition await {A} (p : awaited A) : handler A := fun w =>
  match p with
  | Resolved a => (Normal a, w)
  | Rejected message => (Thrown message, w)
  end.

(** [return e], where evaluating [e] may throw. *)
Definition return_ {A} (e : awaited Response) : handler A := fun w =>
  match e with
  | Resolved r => (Returned r, w)
  | Rejected message => (Thrown message, w)
  end.

Definition emit (e : event) (w : world) : world :=
  {| cache := cache w; trace := trace w ++ [e] |}.

Definition cache_get (key : string) : handler (option CacheEntry) := fun w =>
  (Normal (cache w !! key), emit (CacheGet key) w).

Definition cache_set (key : string) (entry : CacheEntry) : handler unit := fun w =>
  (Normal tt,
   {| cache := <[key := entry]> (cache w);
      trace := trace w ++ [CacheSet key entry] |}).

Definition call_fetch (env : Env) (call : FetchCall) : handler UpstreamResponse :=
  fun w =>
    match fetch env call with
    | Resolved r => (Normal r, emit (Fetch call) w)
    | Rejected message => (Thrown message, emit (Fetch call) w)
    end.

(** [try { h } catch (error) { return c error.message }] around a whole
    function body. *)
Definition try_return (h : handler Response) (c : string → Response)
  : world → Response * world := fun w =>
  match h w with
  | (Normal r, w') | (Returned r, w') => (r, w')
  | (Thrown message, w') => (c message, w')
  end.

(** ** cleanupCache *)

(** Line 13: [now - value.timestamp > CACHE_TTL_MS]. *)
Definition expired (now : Z) (value : CacheEntry) : bool :=
  (CACHE_TTL_MS <? now - timestamp value)%Z.

Definition cleanupCache (now : Z) (c : gmap string CacheEntry)
  : gmap string CacheEntry :=
  filter (fun kv => expired now kv.2 = false) c.

(** ** POST *)

(** Lines 49-53: the coordinates read from the two strings. *)
Record Coordinate : Type := { lat : option number; lng : option number }.

Definition parseCoordinate (d : string) : Coordinate :=
  let numbers := map Number (split "," d) in
  {| lat := numbers !! 0%nat; lng := numbers !! 1%nat |}.

Definition destArray (pieces : list string) : list Coordinate :=
  map parseCoordinate pieces.

Definition point (latitude longitude : option number) : RouteMatrixPoint :=
  {| waypoint := {| location := {| latLng :=
       {| latitude := latitude; longitude := longitude |} |} |} |}.

(** Lines 56-82: the nested request body. *)
Definition requestBody (originLat originLng : option number)
    (destinations : list Coordinate) (mode units language : string)
  : Wire.RequestBody :=
  {| Wire.origins := [point originLat originLng];
     Wire.destinations := map (fun d => point (lat d) (lng d)) destinations;
     Wire.travelMode := toUpperCase mode;
     Wire.languageCode := language;
     Wire.units := toUpperCase units |}.

Definition routes_url : string :=
  "https://routes.googleapis.com/distanceMatrix/v2:computeRouteMatrix".

Definition field_mask : string :=
  "originIndex,destinationIndex,distanceMeters,duration,condition".

Definition fetchCall (apiKey : string) (b : Wire.RequestBody) : FetchCall :=
  {| url := routes_url;
     method := "POST";
     headers := [("Content-Type", "application/json");
                 ("X-Goog-Api-Key", apiKey);
                 ("X-Goog-FieldMask", field_mask)];
     body := b |}.

(** Line 39. *)
Definition cacheKey (origins destinations : option string)
    (mode units language : string) : string :=
  template origins +:+ "|" +:+ template destinations +:+ "|" +:+ mode
  +:+ "|" +:+ units +:+ "|" +:+ language.

(** Lines 97-112: what is done with the answer of the Routes API. *)
Definition handleResponse (env : Env) (cacheKey : string)
    (response : UpstreamResponse) (data : json) : handler Response :=
  if negb (ok response) then
    if (upstream_status response =? 429)%Z then
      return_ (NextResponse_json
                 (error_object "Rate limit exceeded. Try later.") 429)
    else
      error ← await (get "error" data);
      text ← await (ToString (or_else (get_optional "message" error)
                                      (JStr "Unknown")));
      return_ (NextResponse_json
                 (error_object
                    ("HTTP Error: " +:+ pretty (upstream_status response)
                     +:+ " - " +:+ text))
                 (upstream_status response))
  else
  (if truthy data then
     cache_set cacheKey {| data := data; timestamp := now_at_store env |}
   else
     _ ← await (get "error" data); mret tt);;
  return_ (NextResponse_json data 200).

(** Lines 48-95: the path taken when the cache does not answer. *)
Definition callUpstream (env : Env) (origins destinations : option string)
    (mode units language : string) (apiKey : option string) (cacheKey : string)
  : handler Response :=
  originPieces ← await (split_method origins ",");
  let originNumbers := map Number originPieces in
  let originLat := originNumbers !! 0%nat in
  let originLng := originNumbers !! 1%nat in
  destPieces ← await (split_method destinations "|");
  let requestBody :=
    requestBody originLat originLng (destArray destPieces) mode units language in
  response ← call_fetch env (fetchCall (template apiKey) requestBody);
  data ← await (upstream_json response);
  handleResponse env cacheKey response data.

(** Lines 22-46, then the two blocks above. *)
Definition POST_body (env : Env) (request : Request) : handler Response :=
  b ← await (request_json request);
  let origins := origins b in
  let destinations := destinations b in
  let mode := default "DRIVE" (mode b) in
  let units := default "METRIC" (units b) in
  let language := default "fr" (language b) in
  if negb (truthy_string origins) || negb (truthy_string destinations) then
    return_ (NextResponse_json
               (error_object "Missing origins or destinations") 400)
  else
  let apiKey := GOOGLE_MAPS_API_KEY env in
  if negb (truthy_string apiKey) then
    return_ (NextResponse_json (error_object "Missing API key") 400)
  else
  pieces ← await (split_method destinations "|");
  let destinationCount := Z.of_nat (length pieces) in
  if (MAX_DESTINATIONS <? destinationCount)%Z then
    return_ (NextResponse_json
               (error_object ("Exceeds max " +:+ pretty MAX_DESTINATIONS
                              +:+ " destinations.")) 400)
  else
  let cacheKey := cacheKey origins destinations mode units language in
  cachedEntry ← cache_get cacheKey;
  let now := now_at_lookup env in
  match cachedEntry with
  | Some entry =>
      if (now - timestamp entry <? CACHE_TTL_MS)%Z
      then return_ (NextResponse_json (data entry) 200)
      else mret tt
  | None => mret tt
  end;;
  callUpstream env origins destinations mode units language apiKey cacheKey.

(** The [catch] block of lines 114-117. *)
Definition internalError (message : string) : Response :=
  {| status := 500;
     payload := error_object
       (if String.eqb message "" then "Internal Server Error" else message) |}.

Definition POST (env : Env) (request : Request) : world → Response * world :=
  try_return (POST_body env request) internalError.

End RouteMatrix.

(* ===================================================================== *)
(** * src/lib/auth/serverAuth.ts                                           *)
(* ===================================================================== *)

Module ServerAuth.

(** The part of the decoded token the function reads. *)
Record DecodedIdToken : Type := { uid : string }.

(** The service [auth()] returns: its [verifyIdToken] resolves with the
    decoded token or rejects. *)
Record Auth : Type := { verifyIdToken : string → awaited DecodedIdToken }.

(** The Firebase Admin SDK: [auth()] itself throws when no app has been
    initialised. *)
Record Admin : Type := { auth : awaited Auth }.

(** [request.headers.get('authorization')]; [None] is [null]. *)
Record NextRequest : Type := { authorization : option string }.

(** [try { p } catch (error) { h }] inside an async function. *)
Definition try_async {A} (p : awaited A) (h : string → awaited A) : awaited A :=
  match p with
  | Resolved a => Resolved a
  | Rejected message => h message
  end.

Definition startsWith (s prefix : string) : bool := String.prefix prefix s.

(** Lines 22-46.  In line 27 [||] does not evaluate [startsWith] when the
    header is [null]. *)
Definition verifyAuthToken (admin : Admin) (request : NextRequest)
  : awaited (option string) :=
  try_async
    (let authHeader := authorization request in
     if negb (truthy_string authHeader)
        || negb (startsWith (template authHeader) "Bearer ")
     then mret None
     else
     pieces ← split_method authHeader "Bearer ";
     let token := pieces !! 1%nat in
     if negb (truthy_string token) then mret None
     else
     service ← auth admin;
     decodedToken ← verifyIdToken service (template token);
     mret (Some (uid decodedToken)))
    (fun _ => Resolved None).

End ServerAuth.

(* ===================================================================== *)
(** * src/lib/auth/serverAuth.ts: the decoded token and its claims         *)
(* ===================================================================== *)

Module ServerAuthClaims.

(** The decoded token with the custom claim [isAdmin] reads; [None] is a
    claim that is not set. *)
Record DecodedIdToken : Type := { uid : string; admin : option json }.

Record Auth : Type := { verifyIdToken : string → awaited DecodedIdToken }.

Record Admin : Type := { auth : awaited Auth }.

(** The same SDK seen through [ServerAuth], which reads the [uid] only. *)
Definition forgetToken (d : DecodedIdToken) : ServerAuth.DecodedIdToken :=
  {| ServerAuth.uid := uid d |}.

Definition forgetAuth (service : Auth) : ServerAuth.Auth :=
  {| ServerAuth.verifyIdToken := fun token =>
       d ← verifyIdToken service token; mret (forgetToken d) |}.

Definition forget (sdk : Admin) : ServerAuth.Admin :=
  {| ServerAuth.auth := service ← auth sdk; mret (forgetAuth service) |}.

(** Lines 51-68. *)
Definition verifyAuthTokenWithClaims (sdk : Admin)
    (request : ServerAuth.NextRequest) : awaited (option DecodedIdToken) :=
  ServerAuth.try_async
    (let authHeader := ServerAuth.authorization request in
     if negb (truthy_string authHeader)
        || negb (ServerAuth.startsWith (template authHeader) "Bearer ")
     then mret None
     else
     pieces ← split_method authHeader "Bearer ";
     let token := pieces !! 1%nat in
     if negb (truthy_string token) then mret None
     else
     service ← auth sdk;
     decodedToken ← verifyIdToken service (template token);
     mret (Some decodedToken))
    (fun _ => Resolved None).

(** [v === true] for a claim. *)
Definition is_true (v : option json) : bool :=
  match v with
  | Some (JBool true) => true
  | _ => false
  end.

(** Lines 73-76: [decodedToken?.admin === true || false]. *)
Definition isAdmin (sdk : Admin) (request : ServerAuth.NextRequest)
  : awaited bool :=
  decodedToken ← verifyAuthTokenWithClaims sdk request;
  mret (match decodedToken with
        | Some d => is_true (admin d) || false
        | None => false
        end).

End ServerAuthClaims.

(* ===================================================================== *)
(** * src/lib/auth/serverAuth.ts, second part: useArchiveStation           *)
(* ===================================================================== *)

Module ArchiveStation.

(** An error object. *)
Record Error : Type := { name : string; message : string }.

(** [String(err)] for an error object. *)
Definition String_of (err : Error) : string :=
  if String.eqb (name err) "" then message err
  else if String.eqb (message err) "" then name err
  else name err +:+ ": " +:+ message err.

(** How the promise of [updateDoc], and that of the hook's callbacks,
    settles. *)
Inductive settled : Type :=
  | Fulfilled
  | Failed (err : Error).

(** A call that returns or throws. *)
Inductive outcome (A : Type) : Type :=
  | Returns (a : A)
  | Throws (err : Error).
Arguments Returns {A} a.
Arguments Throws {A} err.

(** The document database: the name of the stations collection (a constant
    of [@/lib/firebase/collections]), [doc], which gives the reference of a
    document of a collection or throws when the two do not make the path of
    a document, and [updateDoc] on such a reference. *)
Record Firestore : Type := {
  DocumentReference : Type;
  STATIONS : string;
  doc : string → string → outcome DocumentReference;
  updateDoc : DocumentReference → list (string * string) → settled
}.

(** What a callback does, in order: state setters and the write. *)
Inductive effect (db : Firestore) : Type :=
  | SetLoading (value : bool)
  | SetError (value : option string)
  | UpdateDoc (reference : DocumentReference db) (fields : list (string * string)).
Arguments SetLoading {db} value.
Arguments SetError {db} value.
Arguments UpdateDoc {db} reference fields.

(** [err?.message || String(err)]. *)
Definition messageOf (err : Error) : string :=
  if String.eqb (message err) "" then String_of err else message err.

(** Lines 86-102 of the hook: [try], [catch] that records and throws again,
    [finally]. *)
Definition changeStationStatus (db : Firestore) (stationId statut : string)
  : settled * list (effect db) :=
  let started := [SetLoading true; SetError None] in
  let caught (err : Error) (done : list (effect db)) :=
    (Failed err,
     done ++ [SetError (Some ("Failed to update station status: "
                              +:+ messageOf err));
              SetLoading false]) in
  match doc db (STATIONS db) stationId with
  | Throws err => caught err started
  | Returns stationRef =>
      let fields := [("Statut", statut)] in
      match updateDoc db stationRef fields with
      | Fulfilled =>
          (Fulfilled, started ++ [UpdateDoc stationRef fields; SetLoading false])
      | Failed err => caught err (started ++ [UpdateDoc stationRef fields])
      end
  end.

Definition archiveStation (db : Firestore) (stationId : string) :=
  changeStationStatus db stationId "archivé".

Definition unarchiveStation (db : Firestore) (stationId : string) :=
  changeStationStatus db stationId "en activité".

(** The state of the hook, and what the setters make of it. *)
Record HookState : Type := { loading : bool; error : option string }.

Definition apply {db : Firestore} (s : HookState) (e : effect db) : HookState :=
  match e with
  | SetLoading value => {| loading := value; error := error s |}
  | SetError value => {| loading := loading s; error := value |}
  | UpdateDoc _ _ => s
  end.

Definition after {db : Firestore} (s : HookState) (effects : list (effect db))
  : HookState :=
  fold_left apply effects s.

End ArchiveStation.

(* ===================================================================== *)
(** * src/components/stations/StationForm.tsx                              *)
(* ===================================================================== *)

(** More of the JavaScript string functions.  Those that go by the tables of
    Unicode ([toLowerCase], [trim]) are given for ASCII text and answer
    [None] for any other: what they return there is not said. *)
Module JSText.
Import PlainText.

Definition isDigit (c : ascii) : bool :=
  let n := nat_of_ascii c in (48 <=? n)%nat && (n <=? 57)%nat.

(** White space as [trim] sees it, within ASCII: tab, line feed, vertical
    tab, form feed, carriage return, space. *)
Definition isSpace (c : ascii) : bool :=
  let n := nat_of_ascii c in
  ((9 <=? n)%nat && (n <=? 13)%nat) || (n =? 32)%nat.

(** [s.replace(/[^...]/g, '')]: the characters that [keep] accepts. *)
Fixpoint keepOnly (keep : ascii → bool) (s : string) : string :=
  match s with
  | EmptyString => EmptyString
  | String c rest =>
      if keep c then String c (keepOnly keep rest) else keepOnly keep rest
  end.

(** [s.slice(0, n)]. *)
Fixpoint slice0 (n : nat) (s : string) : string :=
  match n, s with
  | S k, String c rest => String c (slice0 k rest)
  | _, _ => EmptyString
  end.

Definition digitValue (c : ascii) : Z := Z.of_nat (nat_of_ascii c) - 48.

Fixpoint leadingDigits (acc : Z) (s : string) : Z :=
  match s with
  | String c rest =>
      if isDigit c then leadingDigits (10 * acc + digitValue c) rest else acc
  | EmptyString => acc
  end.

(** [parseInt(s)] for a text that is empty or starts with a digit, as the
    pieces of a text of digits and slashes are: the number its leading
    digits denote, or [None] for [NaN]. *)
Definition parseInt (s : string) : option Z :=
  match s with
  | String c _ => if isDigit c then Some (leadingDigits 0 s) else None
  | EmptyString => None
  end.

(** [a > limit], false when [a] is [NaN]. *)
Definition exceeds (a : option Z) (limit : Z) : bool :=
  match a with
  | Some n => (limit <? n)%Z
  | None => false
  end.

Definition lower (c : ascii) : ascii :=
  let n := nat_of_ascii c in
  if (65 <=? n)%nat && (n <=? 90)%nat then ascii_of_nat (n + 32) else c.

(** [s.toLowerCase()] for an ASCII text, where the letters A-Z change and
    nothing else. *)
Definition toLowerCase (s : string) : option string :=
  if asciiText s then Some (mapChars lower s) else None.

Fixpoint trimStart (s : string) : string :=
  match s with
  | String c rest => if isSpace c then trimStart rest else s
  | EmptyString => EmptyString
  end.

Fixpoint trimEnd (s : string) : string :=
  match s with
  | String c rest =>
      match trimEnd rest with
      | EmptyString => if isSpace c then EmptyString else String c EmptyString
      | kept => String c kept
      end
  | EmptyString => EmptyString
  end.

(** [s.trim()] for an ASCII text. *)
Definition trim (s : string) : option string :=
  if asciiText s then Some (trimEnd (trimStart s)) else None.

(** [s.includes(part)]. *)
Fixpoint includes (s part : string) : bool :=
  match s with
  | EmptyString => String.prefix part ""
  | String _ rest => String.prefix part s || includes rest part
  end.

Definition truthy_text (s : string) : bool := negb (String.eqb s "").

(** [a.filter(keep)] for a test that may have no answer: the first element
    without one leaves the whole without one. *)
Fixpoint filterWith {A : Type} (keep : A → option bool) (a : list A)
  : option (list A) :=
  match a with
  | [] => Some []
  | x :: rest =>
      kept ← keep x;
      others ← filterWith keep rest;
      Some (if kept : bool then x :: others else others)
  end.

End JSText.

Module StationForm.
Import JSText.

(** ** The suggestions of [AutocompleteInput] (lines 97-106) *)

Definition filteredSuggestions {A : Type} (getSuggestionText : A → string)
    (value : string) (showSuggestions : bool) (suggestions : list A)
  : option (list A) :=
  trimmed ← trim value;
  if truthy_text trimmed && showSuggestions then
    filterWith
      (fun item =>
         text ← toLowerCase (getSuggestionText item);
         typed ← toLowerCase value;
         Some (includes text typed))
      suggestions
  else Some [].

(** ** The types on offer for an autorisation (lines 192-202) *)

Record Autorisation : Type := {
  TypeAutorisation : option string;
  NumeroAutorisation : option string;
  DateAutorisation : option string
}.

Definition allTypes : list string := ["création"; "mise en service"].

Fixpoint mapIndexed {A B : Type} (f : A → nat → B) (from : nat) (l : list A)
  : list B :=
  match l with
  | [] => []
  | a :: rest => f a from :: mapIndexed f (S from) rest
  end.

(** [a.includes(x)] for an array of texts. *)
Definition includesText (a : list (option string)) (x : string) : bool :=
  existsb (fun y => match y with
                    | Some t => String.eqb t x
                    | None => false
                    end) a.

Definition getAvailableAutorisationTypes (autorisations : list Autorisation)
    (currentIndex : nat) : list string :=
  let selectedTypes :=
    List.filter truthy_string
      (mapIndexed
         (fun a idx =>
            if negb (Nat.eqb idx currentIndex) then TypeAutorisation a else None)
         0 autorisations) in
  List.filter (fun type => negb (includesText selectedTypes type)) allTypes.

(** ** The date field of an autorisation (lines 549-572) *)

Definition keepDateCharacter (c : ascii) : bool :=
  isDigit c || Ascii.eqb c "/".

(** Lines 550-568: the text put in place of what was typed. *)
Definition formatDate (typed : string) : string :=
  let value := keepOnly keepDateCharacter typed in
  let parts := split "/" value in
  match parts with
  | part0 :: rest =>
      if truthy_text part0 then
        let day := slice0 2 part0 in
        let day := if exceeds (parseInt day) 31 then "31" else day in
        match rest with
        | part1 :: rest' =>
            let month := slice0 2 part1 in
            let month := if exceeds (parseInt month) 12 then "12" else month in
            match rest' with
            | part2 :: _ => day +:+ "/" +:+ month +:+ "/" +:+ slice0 4 part2
            | [] => day +:+ "/" +:+ month
            end
        | [] => day
        end
      else ""
  | [] => ""
  end.

(** Lines 569-571: the update issued, if any. *)
Definition onDateChange (typed : string) : option string :=
  let formatted := formatDate typed in
  if (String.length formatted <=? 10)%nat then Some formatted else None.

End StationForm.

(* ===================================================================== *)
(** * What the statements speak of                                         *)
(* ===================================================================== *)

Module TextSpec.
Import PlainText.

Definition smallLetters : string := "abcdefghijklmnopqrstuvwxyz".
Definition capitalLetters : string := "ABCDEFGHIJKLMNOPQRSTUVWXYZ".

(** The character of [to] at the place [c] has in [from]; [c] itself when it
    does not occur there. *)
Fixpoint translate (from to : string) (c : ascii) : ascii :=
  match from, to with
  | String x from', String y to' =>
      if Ascii.eqb c x then y else translate from' to' c
  | _, _ => c
  end.

(** The capital of a small letter; any other character is left alone. *)
Definition capital (c : ascii) : ascii := translate smallLetters capitalLetters c.

(** An ASCII text in upper case: each small letter replaced by its capital.
    What the upper case of another text is, is not said here. *)
Definition upperCaseOf (s : string) : option string :=
  if asciiText s then Some (mapChars capital s) else None.

(** The white space of ASCII: tab, line feed, vertical tab, form feed,
    carriage return and space. *)
Definition whiteSpace : list ascii :=
  ["009"; "010"; "011"; "012"; "013"; " "]%char.

End TextSpec.

Module RouteMatrixSpec.
Import RouteMatrix.

(** The fetch calls of a trace, in order. *)
Fixpoint fetches (t : list event) : list FetchCall :=
  match t with
  | [] => []
  | Fetch call :: rest => call :: fetches rest
  | _ :: rest => fetches rest
  end.

(** The cache keys read in a trace. *)
Fixpoint lookups (t : list event) : list string :=
  match t with
  | [] => []
  | CacheGet key :: rest => key :: lookups rest
  | _ :: rest => lookups rest
  end.

(** The fingerprint line 39 computes for a body. *)
Definition fingerprint (b : Body) : string :=
  cacheKey (origins b) (destinations b) (default "DRIVE" (mode b))
    (default "METRIC" (units b)) (default "fr" (language b)).

Definition destinationCount (destinations : string) : Z :=
  Z.of_nat (length (split "|" destinations)).

(** The request body lines 49-82 build for a body. *)
Definition wirePayload (b : Body) : Wire.RequestBody :=
  let originNumbers := map Number (split "," (template (origins b))) in
  requestBody (originNumbers !! 0%nat) (originNumbers !! 1%nat)
    (destArray (split "|" (template (destinations b))))
    (default "DRIVE" (mode b)) (default "METRIC" (units b))
    (default "fr" (language b)).

Definition outboundCall (env : Env) (b : Body) : FetchCall :=
  fetchCall (template (GOOGLE_MAPS_API_KEY env)) (wirePayload b).

(** The three checks of lines 25-37, all passed. *)
Definition validated (env : Env) (b : Body) : bool :=
  truthy_string (origins b) && truthy_string (destinations b)
  && truthy_string (GOOGLE_MAPS_API_KEY env)
  && negb (MAX_DESTINATIONS <? destinationCount (template (destinations b)))%Z.

Definition json_response (value : json) : Response :=
  {| status := 200; payload := value |}.

Definition error_response (code : Z) (message : string) : Response :=
  {| status := code; payload := error_object message |}.

(** The cache holds an entry for the fingerprint that is younger than the
    TTL when line 41 reads the clock. *)
Definition freshEntry (env : Env) (b : Body) (c : gmap string CacheEntry)
    (entry : CacheEntry) : Prop :=
  c !! fingerprint b = Some entry
  ∧ (now_at_lookup env - timestamp entry < CACHE_TTL_MS)%Z.

(** [callUpstream] with the arguments line 39 onwards has in scope. *)
Definition upstream (env : Env) (b : Body) : handler Response :=
  callUpstream env (origins b) (destinations b) (default "DRIVE" (mode b))
    (default "METRIC" (units b)) (default "fr" (language b))
    (GOOGLE_MAPS_API_KEY env) (fingerprint b).

(** The world after the cache has been read. *)
Definition looked (b : Body) (w : world) : world :=
  {| cache := cache w; trace := trace w ++ [CacheGet (fingerprint b)] |}.

(** The world after the outbound call has been issued. *)
Definition called (env : Env) (b : Body) (w : world) : world :=
  {| cache := cache w; trace := trace w ++ [Fetch (outboundCall env b)] |}.

(** The world after a successful answer has been stored. *)
Definition stored (env : Env) (key : string) (value : json) (w : world) : world :=
  let entry := {| data := value; timestamp := now_at_store env |} in
  {| cache := <[key := entry]> (cache w);
     trace := trace w ++ [CacheSet key entry] |}.

Definition emptyWorld : world := {| cache := ∅; trace := [] |}.

(** The request of the round-trip scenario, with the optional fields left
    out. *)
Definition rabatBody : Body :=
  {| origins := Some "34.0,-6.0";
     destinations := Some "34.1,-6.1|34.2,-6.2";
     mode := None; units := None; language := None |}.

Definition rabatRequest : Request := {| request_json := Resolved rabatBody |}.

(** An environment whose Routes API answers every call with [code] and the
    body [answer]. *)
Definition answering (code : Z) (answer : awaited json) (now later : Z) : Env :=
  {| GOOGLE_MAPS_API_KEY := Some "key";
     now_at_lookup := now;
     fetch := fun _ =>
       Resolved {| upstream_status := code; upstream_json := answer |};
     now_at_store := later |}.

Definition matrix : json :=
  JArr [JObj [("originIndex", JNum 0); ("destinationIndex", JNum 0);
              ("distanceMeters", JNum 14250); ("duration", JStr "1020s");
              ("condition", JStr "ROUTE_EXISTS")]].

(** The call was answered from the cache: the response is the payload of the
    entry stored under the fingerprint, and the only effect is the cache
    read. *)
Definition servedFromCache (b : Body) (w : world) (result : Response * world)
  : Prop :=
  ∃ entry, cache w !! fingerprint b = Some entry
           ∧ result = (json_response (data entry), looked b w).

Definition twentySix : string := join "|" (replicate 26 "34.1,-6.1").

(** The sentence of the specification on the destination limit, read as it
    stands: whatever else the request holds, more than 25 destinations are
    answered with the text of the limit. *)
Definition limitAlwaysReported (env : Env) (request : Request) (w : world)
  : Prop :=
  ∀ b d, request_json request = Resolved b →
         destinations b = Some d →
         (MAX_DESTINATIONS < destinationCount d)%Z →
         (POST env request w).1
         = error_response 400 "Exceeds max 25 destinations."
         ∧ fetches (trace (POST env request w).2) = fetches (trace w).

(** The guard the specification names for the empty destination string: the
    destination-count check of lines 34-37 refuses [d]. *)
Definition countCheckRefuses (d : string) : Prop :=
  (MAX_DESTINATIONS < destinationCount d)%Z.

(** The scenario of the specification on status 429, read as it stands: the
    status of the answer alone decides. *)
Definition rateLimitReported (env : Env) (request : Request) (b : Body)
    (w : world) : Prop :=
  request_json request = Resolved b →
  validated env b = true →
  (∀ entry, ¬ freshEntry env b (cache w) entry) →
  (∃ r, fetch env (outboundCall env b) = Resolved r
        ∧ upstream_status r = 429%Z) →
  (POST env request w).1 = error_response 429 "Rate limit exceeded. Try later."
  ∧ cache (POST env request w).2 = cache w.

(** The sentence of the specification on a successful answer, read as it
    stands: every answer with a success status is stored and returned. *)
Definition successStored (env : Env) (request : Request) (b : Body)
    (w : world) : Prop :=
  request_json request = Resolved b →
  validated env b = true →
  (∀ entry, ¬ freshEntry env b (cache w) entry) →
  ∀ r value,
    fetch env (outboundCall env b) = Resolved r →
    ok r = true →
    upstream_json r = Resolved value →
    (POST env request w).1 = json_response value
    ∧ cache (POST env request w).2 !! fingerprint b
      = Some {| data := value; timestamp := now_at_store env |}.

(** The first testable property of the specification, read as it stands:
    two calls with one body, the second looked up less than a TTL after the
    first, issue at most one outbound call between them and give the same
    response. *)
Definition repeatedCallCoalesced (env1 env2 : Env) (request : Request)
    (b : Body) (w : world) : Prop :=
  request_json request = Resolved b →
  validated env1 b = true → validated env2 b = true →
  (now_at_lookup env2 - now_at_lookup env1 < CACHE_TTL_MS)%Z →
  let first := POST env1 request w in
  let second := POST env2 request first.2 in
  (∃ calls, fetches (trace second.2) = fetches (trace w) ++ calls
            ∧ (length calls ≤ 1)%nat)
  ∧ second.1 = first.1.

(** The timer of line 18 between two calls: it did not fire, or it ran
    [cleanupCache] at some time. *)
Definition sweepAt (sweep : option Z) (w : world) : world :=
  match sweep with
  | None => w
  | Some now => {| cache := cleanupCache now (cache w); trace := trace w |}
  end.

(** The first call obtained the payload [value], from a fresh entry or from
    a successful answer that it stored, and the entry is younger than the TTL
    when the second call reads the clock. *)
Definition answeredAndStillFresh (env1 env2 : Env) (b : Body) (w : world)
    (value : json) : Prop :=
  (∃ entry, freshEntry env1 b (cache w) entry ∧ data entry = value
            ∧ (now_at_lookup env2 - timestamp entry < CACHE_TTL_MS)%Z)
  ∨ ((∀ entry, ¬ freshEntry env1 b (cache w) entry)
     ∧ (∃ r, fetch env1 (outboundCall env1 b) = Resolved r ∧ ok r = true
             ∧ upstream_json r = Resolved value ∧ truthy value = true)
     ∧ (now_at_lookup env2 - now_at_store env1 < CACHE_TTL_MS)%Z).



End RouteMatrixSpec.

Module ServerAuthSpec.
Import ServerAuth.

(** [sep] occurs somewhere in [s]. *)
Fixpoint occurs (sep s : string) : bool :=
  match s with
  | EmptyString => String.prefix sep ""
  | String _ rest => String.prefix sep s || occurs sep rest
  end.

(** The token line 32 takes from a header. *)
Definition bearerToken (authHeader : string) : option string :=
  split "Bearer " authHeader !! 1%nat.

(** The value the function resolves with, by cases. *)
Definition verdict (admin : Admin) (request : NextRequest) : option string :=
  match authorization request with
  | None => None
  | Some h =>
      if startsWith h "Bearer " then
        match bearerToken h with
        | Some token =>
            if String.eqb token "" then None
            else
              match auth admin with
              | Resolved service =>
                  match verifyIdToken service token with
                  | Resolved decoded => Some (uid decoded)
                  | Rejected _ => None
                  end
              | Rejected _ => None
              end
        | None => None
        end
      else None
  end.

Definition jwt : string := "eyJhbGciOiJSUzI1NiJ9.eyJ1aWQiOiJ1MSJ9.c2ln".

Definition acceptingService (token user : string) : Auth :=
  {| verifyIdToken := fun t =>
       if String.eqb t token then Resolved {| uid := user |}
       else Rejected "Decoding Firebase ID token failed." |}.

Definition accepting (token user : string) : Admin :=
  {| auth := Resolved (acceptingService token user) |}.

End ServerAuthSpec.

Module RouteMatrixMoreSpec.
Import RouteMatrix RouteMatrixSpec.

(** The character [c] occurs in [s]. *)
Fixpoint contains (c : ascii) (s : string) : bool :=
  match s with
  | EmptyString => false
  | String x rest => Ascii.eqb x c || contains c rest
  end.

(** The text of a coordinate pair, as the callers write it. *)
Definition pairText (p : string * string) : string := p.1 +:+ "," +:+ p.2.

(** Neither component of a pair holds a separator. *)
Definition plainPair (p : string * string) : bool :=
  negb (contains "," p.1) && negb (contains "|" p.1)
  && negb (contains "," p.2) && negb (contains "|" p.2).

(** The coordinate a pair of texts denotes. *)
Definition coordinateOf (p : string * string) : Coordinate :=
  {| lat := Some (Number p.1); lng := Some (Number p.2) |}.

(** Every payload held by the cache is truthy. *)
Definition allTruthy (c : gmap string CacheEntry) : Prop :=
  ∀ key entry, c !! key = Some entry → truthy (data entry) = true.

(** The events a call adds to the trace. *)
Definition added (w : world) (result : Response * world) (new : list event)
  : Prop :=
  trace result.2 = trace w ++ new.

(** The text of the check that refuses a body, in the order of lines
    25-37. *)
Definition rejection (env : Env) (b : Body) : string :=
  if negb (truthy_string (origins b) && truthy_string (destinations b))
  then "Missing origins or destinations"
  else if negb (truthy_string (GOOGLE_MAPS_API_KEY env))
  then "Missing API key"
  else "Exceeds max 25 destinations.".

(** What happens to the cache over time: calls of the handler and runs of
    the sweep, in some order, starting from the empty cache. *)
Inductive action : Type :=
  | Call (env : Env) (request : Request)
  | Sweep (now : Z).

Definition perform (w : world) (a : action) : world :=
  match a with
  | Call env request => (POST env request w).2
  | Sweep now => sweepAt (Some now) w
  end.

Definition history (actions : list action) : world :=
  fold_left perform actions emptyWorld.

Definition headerOf (name : string) (call : FetchCall) : option string :=
  snd <$> List.find (fun h => String.eqb h.1 name) (headers call).

End RouteMatrixMoreSpec.

Module ServerAuthMoreSpec.
Import ServerAuth ServerAuthSpec.

(** The token [verifyAuthTokenWithClaims] resolves with, by cases. *)
Definition claimsVerdict (sdk : ServerAuthClaims.Admin) (request : NextRequest)
  : option ServerAuthClaims.DecodedIdToken :=
  match authorization request with
  | None => None
  | Some h =>
      if startsWith h "Bearer " then
        match bearerToken h with
        | Some token =>
            if String.eqb token "" then None
            else
              match ServerAuthClaims.auth sdk with
              | Resolved service =>
                  match ServerAuthClaims.verifyIdToken service token with
                  | Resolved decoded => Some decoded
                  | Rejected _ => None
                  end
              | Rejected _ => None
              end
        | None => None
        end
      else None
  end.

(** An SDK that accepts one token, for a user with the given [admin]
    claim. *)
Definition acceptingWithClaim (token user : string) (claim : option json)
  : ServerAuthClaims.Admin :=
  {| ServerAuthClaims.auth := Resolved
       {| ServerAuthClaims.verifyIdToken := fun t =>
            if String.eqb t token
            then Resolved {| ServerAuthClaims.uid := user;
                             ServerAuthClaims.admin := claim |}
            else Rejected "Decoding Firebase ID token failed." |} |}.

End ServerAuthMoreSpec.

Module StationFormSpec.
Import JSText StationForm.

(** Every character of [s] passes [p]. *)
Fixpoint allChars (p : ascii → bool) (s : string) : bool :=
  match s with
  | EmptyString => true
  | String c rest => p c && allChars p rest
  end.

Definition digits (s : string) : bool := allChars isDigit s.

(** A day: one or two digits, at most 31. *)
Definition okDay (d : string) : bool :=
  truthy_text d && digits d && (String.length d <=? 2)%nat
  && negb (exceeds (parseInt d) 31).

(** A month: up to two digits, at most 12. *)
Definition okMonth (m : string) : bool :=
  digits m && (String.length m <=? 2)%nat && negb (exceeds (parseInt m) 12).

(** A year: up to four digits. *)
Definition okYear (y : string) : bool :=
  digits y && (String.length y <=? 4)%nat.

(** The pieces of a date as far as it has been typed. *)
Definition wellFormed (pieces : list string) : bool :=
  match pieces with
  | [] => true
  | [d] => okDay d
  | [d; m] => okDay d && okMonth m
  | [d; m; y] => okDay d && okMonth m && okYear y
  | _ => false
  end.

Definition dateText (pieces : list string) : string := join "/" pieces.

(** Nothing but white space. *)
Definition blank (s : string) : bool :=
  allChars (fun c => existsb (Ascii.eqb c) TextSpec.whiteSpace) s.

End StationFormSpec.

Module ArchiveStationSpec.
Import ArchiveStation.

(** What the page asks of the hook. *)
Inductive request : Type :=
  | Archive (stationId : string)
  | Unarchive (stationId : string).

Definition stationOf (r : request) : string :=
  match r with Archive id | Unarchive id => id end.

Definition statusOf (r : request) : string :=
  match r with Archive _ => "archivé" | Unarchive _ => "en activité" end.

Definition perform (db : Firestore) (r : request) : settled * list (effect db) :=
  match r with
  | Archive id => archiveStation db id
  | Unarchive id => unarchiveStation db id
  end.

(** The effects of a series of requests, each one settled before the next
    is made. *)
Definition session (db : Firestore) (requests : list request)
  : list (effect db) :=
  concat (map (fun r => (perform db r).2) requests).

(** The writes among the effects. *)
Definition writes {db : Firestore} (effects : list (effect db))
  : list (DocumentReference db * list (string * string)) :=
  omap (fun e => match e with
                 | UpdateDoc reference fields => Some (reference, fields)
                 | _ => None
                 end) effects.

(** The one write a request is for, when its station has a document. *)
Definition writeFor (db : Firestore) (r : request)
  : option (DocumentReference db * list (string * string)) :=
  match doc db (STATIONS db) (stationOf r) with
  | Returns reference => Some (reference, [("Statut", statusOf r)])
  | Throws _ => None
  end.

(** How a request should settle: as [doc] throws, or else as the write
    settles. *)
Definition settlesAs (db : Firestore) (r : request) : settled :=
  match doc db (STATIONS db) (stationOf r) with
  | Returns reference => updateDoc db reference [("Statut", statusOf r)]
  | Throws err => Failed err
  end.

End ArchiveStationSpec.

(* ===================================================================== *)
(** * Properties of the route-matrix proxy                                 *)
(* ===================================================================== *)

Module RouteMatrixFacts.
Import RouteMatrix RouteMatrixSpec.

Lemma truthy_string_Some v :
  truthy_string v = true → ∃ s, v = Some s ∧ s ≠ "".
Proof.
  destruct v as [s|]; [|discriminate]. simpl. intros H. exists s. split; [done|].
  intros ->. discriminate.
Qed.

Lemma truthy_string_false v :
  truthy_string v = false ↔ v = None ∨ v = Some "".
Proof.
  destruct v as [s|]; simpl.
  - destruct (String.eqb_spec s "") as [->|Hs]; simpl.
    + split; [by right | done].
    + split; [done | intros [|[=]]; done].
  - split; [by left | done].
Qed.

Lemma validated_inv env b :
  validated env b = true →
  ∃ o d k, origins b = Some o ∧ o ≠ "" ∧ destinations b = Some d ∧ d ≠ ""
           ∧ GOOGLE_MAPS_API_KEY env = Some k ∧ k ≠ ""
           ∧ (destinationCount d ≤ MAX_DESTINATIONS)%Z.
Proof.
  unfold validated. rewrite !andb_true_iff, negb_true_iff, Z.ltb_ge.
  intros [[[Ho Hd] Hk] Hn].
  apply truthy_string_Some in Ho as (o & Ho & ?).
  apply truthy_string_Some in Hd as (d & Hd & ?).
  apply truthy_string_Some in Hk as (k & Hk & ?).
  rewrite Hd in Hn. exists o, d, k. done.
Qed.

Ltac run :=
  unfold POST, try_return, POST_body, upstream, callUpstream, mbind,
    handler_bind, mret, handler_ret, await, return_, cache_get, cache_set,
    call_fetch, emit; simpl.

Lemma POST_missing env request b w :
  request_json request = Resolved b →
  truthy_string (origins b) && truthy_string (destinations b) = false →
  POST env request w = (error_response 400 "Missing origins or destinations", w).
Proof.
  intros Hb H. run. rewrite Hb.
  destruct (truthy_string (origins b)), (truthy_string (destinations b));
    try discriminate; reflexivity.
Qed.

Lemma POST_no_key env request b w :
  request_json request = Resolved b →
  truthy_string (origins b) && truthy_string (destinations b) = true →
  truthy_string (GOOGLE_MAPS_API_KEY env) = false →
  POST env request w = (error_response 400 "Missing API key", w).
Proof.
  intros Hb [Ho Hd]%andb_true_iff Hk. run. rewrite Hb, Ho, Hd, Hk. reflexivity.
Qed.

Lemma POST_too_many env request b w :
  request_json request = Resolved b →
  truthy_string (origins b) && truthy_string (destinations b) = true →
  truthy_string (GOOGLE_MAPS_API_KEY env) = true →
  (MAX_DESTINATIONS < destinationCount (template (destinations b)))%Z →
  POST env request w = (error_response 400 "Exceeds max 25 destinations.", w).
Proof.
  intros Hb [Ho Hd]%andb_true_iff Hk Hn. run. rewrite Hb, Ho, Hd, Hk. simpl.
  apply truthy_string_Some in Hd as (d & Hd & ?). rewrite Hd in *. simpl in *.
  apply Z.ltb_lt in Hn. unfold destinationCount in Hn. rewrite Hn. reflexivity.
Qed.

Lemma POST_hit env request b w entry :
  request_json request = Resolved b →
  validated env b = true →
  freshEntry env b (cache w) entry →
  POST env request w
  = (json_response (data entry), looked b w).
Proof.
  unfold looked.
  intros Hb (o & d & k & Ho & ? & Hd & ? & Hk & ? & Hn)%validated_inv [He Hage].
  run. rewrite Hb, Ho, Hd, Hk. simpl.
  destruct (String.eqb_spec o ""), (String.eqb_spec d ""), (String.eqb_spec k "");
    try done. simpl.
  apply Z.ltb_ge in Hn. unfold destinationCount in Hn. rewrite Hn.
  unfold fingerprint in *. rewrite Ho, Hd in *. simpl in He. rewrite He.
  apply Z.ltb_lt in Hage. rewrite Hage. reflexivity.
Qed.

Lemma POST_miss env request b w :
  request_json request = Resolved b →
  validated env b = true →
  (∀ entry, ¬ freshEntry env b (cache w) entry) →
  POST env request w
  = try_return (upstream env b) internalError (looked b w).
Proof.
  unfold looked.
  intros Hb (o & d & k & Ho & ? & Hd & ? & Hk & ? & Hn)%validated_inv Hstale.
  unfold POST, try_return, POST_body, upstream, fingerprint, mbind,
    handler_bind, mret, handler_ret, await, return_, cache_get, emit.
  rewrite Hb, Ho, Hd, Hk. simpl.
  destruct (String.eqb_spec o ""), (String.eqb_spec d ""), (String.eqb_spec k "");
    try done. simpl.
  apply Z.ltb_ge in Hn. unfold destinationCount in Hn. rewrite Hn.
  pose proof (Hstale) as Hs. unfold freshEntry, fingerprint in Hs.
  rewrite Ho, Hd in Hs. simpl in Hs.
  destruct (cache w !! _) as [entry|] eqn:He; [|reflexivity].
  destruct (Z.ltb_spec (now_at_lookup env - timestamp entry) CACHE_TTL_MS);
    [|reflexivity].
  exfalso. apply (Hs entry). done.
Qed.

Lemma fetches_app t1 t2 : fetches (t1 ++ t2) = fetches t1 ++ fetches t2.
Proof.
  induction t1 as [|[] t1 IH]; simpl; [done| | |]; rewrite ?IH; done.
Qed.

Lemma lookups_app t1 t2 : lookups (t1 ++ t2) = lookups t1 ++ lookups t2.
Proof.
  induction t1 as [|[] t1 IH]; simpl; [done| | |]; rewrite ?IH; done.
Qed.

Lemma upstream_run env b w o d :
  origins b = Some o → destinations b = Some d →
  try_return (upstream env b) internalError w
  = match fetch env (outboundCall env b) with
    | Rejected message => (internalError message, called env b w)
    | Resolved r =>
        match upstream_json r with
        | Rejected message => (internalError message, called env b w)
        | Resolved value =>
            try_return (handleResponse env (fingerprint b) r value)
              internalError (called env b w)
        end
    end.
Proof.
  intros Ho Hd. unfold called, outboundCall, wirePayload. run.
  rewrite Ho, Hd. simpl.
  destruct (fetch env _) as [r|message]; [|reflexivity].
  destruct (upstream_json r) as [value|message]; reflexivity.
Qed.

Lemma handleResponse_429 env key r value w :
  upstream_status r = 429%Z →
  try_return (handleResponse env key r value) internalError w
  = (error_response 429 "Rate limit exceeded. Try later.", w).
Proof.
  intros H. unfold handleResponse, ok. rewrite H. reflexivity.
Qed.

Lemma handleResponse_stored env key r value w :
  ok r = true → truthy value = true →
  try_return (handleResponse env key r value) internalError w
  = (json_response value, stored env key value w).
Proof.
  intros Hok Hv. unfold handleResponse. rewrite Hok, Hv. reflexivity.
Qed.

(** The answer handling issues no call and touches the cache in one case
    only. *)
Lemma handleResponse_effects env key r value w :
  let result := try_return (handleResponse env key r value) internalError w in
  (result.2 = w ∧ ¬ (ok r = true ∧ truthy value = true))
  ∨ (ok r = true ∧ truthy value = true
     ∧ result = (json_response value, stored env key value w)).
Proof.
  simpl. destruct (ok r) eqn:Hok, (truthy value) eqn:Hv.
  - right. rewrite handleResponse_stored by done. done.
  - left. split; [|intros [? ?]; congruence].
    unfold handleResponse. rewrite Hok, Hv. run.
    destruct (get "error" value); reflexivity.
  - left. split; [|intros [? ?]; congruence].
    unfold handleResponse. rewrite Hok. run.
    destruct (_ =? 429)%Z; [reflexivity|].
    destruct (get "error" value); [|reflexivity].
    destruct (ToString _); [|reflexivity].
    destruct (NextResponse_json _ _); reflexivity.
  - left. split; [|intros [? ?]; congruence].
    unfold handleResponse. rewrite Hok. run.
    destruct (_ =? 429)%Z; [reflexivity|].
    destruct (get "error" value); [|reflexivity].
    destruct (ToString _); [|reflexivity].
    destruct (NextResponse_json _ _); reflexivity.
Qed.

Lemma fresh_dec env b c :
  {entry | freshEntry env b c entry} + {∀ entry, ¬ freshEntry env b c entry}.
Proof.
  unfold freshEntry. destruct (c !! fingerprint b) as [entry|] eqn:He.
  - destruct (Z_lt_dec (now_at_lookup env - timestamp entry) CACHE_TTL_MS).
    + left. exists entry. done.
    + right. intros e [[= ->] ?]. done.
  - right. intros e [[=] ?].
Qed.

(** What a call does after validation when the cache does not answer:
    exactly one outbound call, and a cache write only for a successful
    answer with a truthy payload. *)
Lemma POST_miss_cases env request b w :
  request_json request = Resolved b →
  validated env b = true →
  (∀ entry, ¬ freshEntry env b (cache w) entry) →
  let result := POST env request w in
  (result.2 = called env b (looked b w)
   ∧ ¬ (∃ r value, fetch env (outboundCall env b) = Resolved r
          ∧ upstream_json r = Resolved value
          ∧ ok r = true ∧ truthy value = true))
  ∨ (∃ r value, fetch env (outboundCall env b) = Resolved r
       ∧ upstream_json r = Resolved value
       ∧ ok r = true ∧ truthy value = true
       ∧ result = (json_response value,
                   stored env (fingerprint b) value (called env b (looked b w)))).
Proof.
  intros Hb Hv Hstale. simpl. rewrite (POST_miss _ _ b) by done.
  destruct (validated_inv _ _ Hv) as (o & d & k & Ho & _ & Hd & _).
  rewrite (upstream_run _ _ _ o d) by done.
  destruct (fetch env _) as [r|message] eqn:Hf.
  2:{ left. split; [done|]. intros (? & ? & [=] & _). }
  destruct (upstream_json r) as [value|message] eqn:Hj.
  2:{ left. split; [done|]. intros (? & ? & [= <-] & ? & _). congruence. }
  destruct (handleResponse_effects env (fingerprint b) r value
              (called env b (looked b w))) as [[H1 H2]|(? & ? & H3)].
  - left. split; [done|]. intros (? & ? & [= <-] & ? & ? & ?).
    apply H2. split; congruence.
  - right. exists r, value. done.
Qed.

(** The response of [handleResponse] does not depend on the world. *)
Lemma handleResponse_response env key r value w w' :
  (try_return (handleResponse env key r value) internalError w).1
  = (try_return (handleResponse env key r value) internalError w').1.
Proof.
  unfold handleResponse.
  destruct (ok r); simpl.
  - destruct (truthy value); run; [reflexivity|].
    destruct (get "error" value); reflexivity.
  - destruct (_ =? 429)%Z; [reflexivity|]. run.
    destruct (get "error" value); [|reflexivity].
    destruct (ToString _); [|reflexivity].
    destruct (NextResponse_json _ _); reflexivity.
Qed.

Lemma upstream_response env b w w' o d :
  origins b = Some o → destinations b = Some d →
  (try_return (upstream env b) internalError w).1
  = (try_return (upstream env b) internalError w').1.
Proof.
  intros Ho Hd. rewrite !(upstream_run _ _ _ o d) by done.
  destruct (fetch env _) as [r|]; [|reflexivity].
  destruct (upstream_json r); [|reflexivity].
  apply handleResponse_response.
Qed.

Lemma not_validated env request b w :
  request_json request = Resolved b →
  validated env b = false →
  ∃ message, POST env request w = (error_response 400 message, w).
Proof.
  intros Hb Hv.
  destruct (truthy_string (origins b) && truthy_string (destinations b)) eqn:H1.
  2:{ eexists. by apply (POST_missing _ _ b). }
  destruct (truthy_string (GOOGLE_MAPS_API_KEY env)) eqn:H2.
  2:{ eexists. by apply (POST_no_key _ _ b). }
  eexists. apply (POST_too_many _ _ b); try done.
  unfold validated in Hv. rewrite H1, H2 in Hv. simpl in Hv.
  apply negb_false_iff, Z.ltb_lt in Hv. done.
Qed.

(** A body passes the three checks exactly when the handler gets as far
    as reading the cache (line 40). *)
Lemma validated_iff_lookup env request b w :
  request_json request = Resolved b →
  validated env b = true
  ↔ lookups (trace (POST env request w).2)
    = lookups (trace w) ++ [fingerprint b].
Proof.
  intros Hb. split.
  - intros Hv. destruct (fresh_dec env b (cache w)) as [[entry He]|Hstale].
    + rewrite (POST_hit _ _ b w entry) by done. simpl.
      by rewrite lookups_app.
    + destruct (POST_miss_cases env request b w Hb Hv Hstale)
        as [[E _]|(r & value & _ & _ & _ & _ & E)]; rewrite E; simpl;
        rewrite ?lookups_app; simpl; by rewrite ?app_nil_r.
  - intros Ht. destruct (validated env b) eqn:Hv; [done|].
    destruct (not_validated env request b w Hb Hv) as [m E].
    rewrite E in Ht. simpl in Ht. apply (f_equal length) in Ht.
    rewrite length_app in Ht. simpl in Ht. lia.
Qed.

(** The sweep keeps the entries whose age does not exceed the TTL.  An
    entry whose age is exactly the TTL survives the sweep and is not served:
    the lookup has its own, stricter test. *)
Lemma cleanupCache_lookup now (c : gmap string CacheEntry) key entry :
  cleanupCache now c !! key = Some entry
  ↔ c !! key = Some entry ∧ (now - timestamp entry ≤ CACHE_TTL_MS)%Z.
Proof.
  unfold cleanupCache. rewrite map_lookup_filter_Some. simpl.
  unfold expired. rewrite Z.ltb_ge. done.
Qed.

Lemma freshEntry_swept env b (c : gmap string CacheEntry) entry sweep w :
  cache w = c →
  freshEntry env b c entry →
  (∀ now, sweep = Some now → (now ≤ now_at_lookup env)%Z) →
  freshEntry env b (cache (sweepAt sweep w)) entry.
Proof.
  intros <- [He Hage] Hs. destruct sweep as [now|]; simpl; [|done].
  split; [|done]. apply cleanupCache_lookup. split; [done|].
  specialize (Hs now eq_refl). lia.
Qed.

(** ** Serving from the cache *)

(** C1. For a request that passes validation the handler answers from the
    cache exactly when the cache holds an entry for the fingerprint whose age
    at the lookup is strictly below the TTL.  Otherwise one outbound call
    follows the lookup, and the response is the one the handler would give
    had the stale entry not been there. *)
Theorem cached_iff_fresh env request b w :
  request_json request = Resolved b →
  validated env b = true →
  let result := POST env request w in
  CACHE_TTL_MS = (5 * 60 * 1000)%Z
  ∧ (servedFromCache b w result
     ↔ ∃ entry, cache w !! fingerprint b = Some entry
                ∧ (now_at_lookup env - timestamp entry < CACHE_TTL_MS)%Z)
  ∧ ((∀ entry, ¬ freshEntry env b (cache w) entry) →
     (∃ tail, trace result.2
              = trace w ++ CacheGet (fingerprint b)
                  :: Fetch (outboundCall env b) :: tail
              ∧ fetches tail = [])
     ∧ result.1
       = (POST env request
            {| cache := delete (fingerprint b) (cache w); trace := trace w |}).1).
Proof.
  intros Hb Hv result. subst result. split; [reflexivity|]. split.
  - split.
    + intros (entry & He & Hr).
      destruct (fresh_dec env b (cache w)) as [[e He']|Hstale]; [by exists e|].
      exfalso.
      assert (Ht : trace (POST env request w).2 = trace (looked b w))
        by (rewrite Hr; done).
      destruct (POST_miss_cases env request b w Hb Hv Hstale)
        as [[H2 _]|(r & value & _ & _ & _ & _ & H2)];
        rewrite H2 in Ht; simpl in Ht;
        rewrite <- ?app_assoc in Ht; apply app_inv_head in Ht; discriminate.
    + intros (entry & He). exists entry. split; [apply He|].
      by apply POST_hit.
  - intros Hstale. split.
    + destruct (POST_miss_cases env request b w Hb Hv Hstale)
        as [[H2 _]|(r & value & _ & _ & _ & _ & H2)]; rewrite H2; simpl;
        rewrite <- ?app_assoc; simpl; eexists; split; reflexivity.
    + destruct (validated_inv _ _ Hv) as (o & d & k & Ho & _ & Hd & _).
      rewrite !(POST_miss _ _ b); try done.
      * by apply (upstream_response _ _ _ _ o d).
      * intros entry [He _]. simpl in He. by rewrite lookup_delete_eq in He.
Qed.

Lemma cached_iff_fresh_witness :
  let env := answering 200 (Resolved matrix) 1000 1200 in
  let stale := {| data := JNull; timestamp := 1000 - CACHE_TTL_MS |} in
  let w := {| cache := {[fingerprint rabatBody := stale]}; trace := [] |} in
  let result := POST env rabatRequest w in
  (request_json rabatRequest = Resolved rabatBody ∧ validated env rabatBody = true)
  ∧ CACHE_TTL_MS = (5 * 60 * 1000)%Z
  ∧ (servedFromCache rabatBody w result
     ↔ ∃ entry, cache w !! fingerprint rabatBody = Some entry
                ∧ (now_at_lookup env - timestamp entry < CACHE_TTL_MS)%Z)
  ∧ ((∀ entry, ¬ freshEntry env rabatBody (cache w) entry) →
     (∃ tail, trace result.2
              = trace w ++ CacheGet (fingerprint rabatBody)
                  :: Fetch (outboundCall env rabatBody) :: tail
              ∧ fetches tail = [])
     ∧ result.1
       = (POST env rabatRequest
            {| cache := delete (fingerprint rabatBody) (cache w);
               trace := trace w |}).1).
Proof.
  intros env stale w result. split; [split; reflexivity|].
  exact (cached_iff_fresh env rabatRequest rabatBody w eq_refl eq_refl).
Defined.

(** ** Validation *)

(** C3. A body in which [origins] or [destinations] is left out or empty is
    answered with status 400 and the text "Missing origins or destinations";
    the world is left as it was: no cache read, no outbound call, no cache
    write. *)
Theorem missing_fields_rejected env request b w :
  request_json request = Resolved b →
  origins b = None ∨ origins b = Some ""
  ∨ destinations b = None ∨ destinations b = Some "" →
  POST env request w = (error_response 400 "Missing origins or destinations", w)
  ∧ lookups (trace (POST env request w).2) = lookups (trace w)
  ∧ fetches (trace (POST env request w).2) = fetches (trace w).
Proof.
  intros Hb H.
  assert (E : POST env request w
              = (error_response 400 "Missing origins or destinations", w)).
  { apply (POST_missing _ _ b); [done|]. apply andb_false_iff.
    rewrite !truthy_string_false. tauto. }
  rewrite E. done.
Qed.

Lemma missing_fields_rejected_witness :
  let b := {| origins := Some "34.0,-6.0"; destinations := Some "";
              mode := None; units := None; language := None |} in
  let env := answering 200 (Resolved matrix) 0 0 in
  let request := {| request_json := Resolved b |} in
  destinations b = Some ""
  ∧ POST env request emptyWorld
    = (error_response 400 "Missing origins or destinations", emptyWorld)
  ∧ lookups (trace (POST env request emptyWorld).2) = lookups (trace emptyWorld)
  ∧ fetches (trace (POST env request emptyWorld).2) = fetches (trace emptyWorld).
Proof.
  intros b env request. split; [reflexivity|].
  apply (missing_fields_rejected env request b emptyWorld eq_refl).
  right. right. right. reflexivity.
Defined.

Lemma POST_stored env request b w r value :
  request_json request = Resolved b →
  validated env b = true →
  (∀ entry, ¬ freshEntry env b (cache w) entry) →
  fetch env (outboundCall env b) = Resolved r →
  ok r = true →
  upstream_json r = Resolved value →
  truthy value = true →
  POST env request w
  = (json_response value,
     stored env (fingerprint b) value (called env b (looked b w))).
Proof.
  intros Hb Hv Hstale Hf Hok Hj Ht.
  destruct (validated_inv _ _ Hv) as (o & d & k & Ho & _ & Hd & _).
  rewrite (POST_miss _ _ b), (upstream_run _ _ _ o d), Hf, Hj by done.
  by apply handleResponse_stored.
Qed.

(** Every call leaves the world as it was, or answers from the cache, or
    issues one outbound call; the cache is written only after a successful
    answer with a truthy payload. *)
Lemma POST_effects env request w :
  let result := POST env request w in
  result.2 = w
  ∨ (∃ b, request_json request = Resolved b ∧ validated env b = true
          ∧ (result.2 = looked b w ∨ result.2 = called env b (looked b w)))
  ∨ (∃ b r value,
       request_json request = Resolved b ∧ validated env b = true
       ∧ (∀ entry, ¬ freshEntry env b (cache w) entry)
       ∧ fetch env (outboundCall env b) = Resolved r
       ∧ upstream_json r = Resolved value
       ∧ ok r = true ∧ truthy value = true
       ∧ result = (json_response value,
                   stored env (fingerprint b) value (called env b (looked b w)))).
Proof.
  simpl. destruct (request_json request) as [b|message] eqn:Hb.
  2:{ left. run. rewrite Hb. reflexivity. }
  destruct (validated env b) eqn:Hv.
  2:{ left. destruct (not_validated env request b w Hb Hv) as [m ->]. done. }
  destruct (fresh_dec env b (cache w)) as [[entry He]|Hstale].
  { right. left. exists b. rewrite (POST_hit _ _ b w entry) by done. auto. }
  destruct (POST_miss_cases env request b w Hb Hv Hstale)
    as [[H2 _]|(r & value & ? & ? & ? & ? & H2)].
  - right. left. exists b. auto.
  - right. right. exists b, r, value. done.
Qed.

(** With [origins] left out, 26 destinations are answered with the text of
    the first check. *)
Lemma limit_not_always_reported :
  ¬ limitAlwaysReported (answering 200 (Resolved matrix) 0 0)
      {| request_json := Resolved
           {| origins := None; destinations := Some twentySix;
              mode := None; units := None; language := None |} |}
      emptyWorld.
Proof.
  intros H. specialize (H _ twentySix eq_refl eq_refl).
  destruct H as [H _]; [vm_compute; reflexivity|].
  vm_compute in H. discriminate H.
Qed.

(** C4. More than 25 destinations are always answered with status 400, and
    the world is left as it was (no cache read, no outbound call).  The text
    is "Exceeds max 25 destinations." when [origins] is present and the API
    key is configured; the two earlier checks come first otherwise. *)
Theorem too_many_destinations_rejected env request b d w :
  request_json request = Resolved b →
  destinations b = Some d →
  (MAX_DESTINATIONS < destinationCount d)%Z →
  status (POST env request w).1 = 400%Z
  ∧ (POST env request w).2 = w
  ∧ fetches (trace (POST env request w).2) = fetches (trace w)
  ∧ (truthy_string (origins b) = true →
     truthy_string (GOOGLE_MAPS_API_KEY env) = true →
     (POST env request w).1 = error_response 400 "Exceeds max 25 destinations.").
Proof.
  intros Hb Hd Hn.
  assert (Hv : validated env b = false).
  { unfold validated. rewrite Hd. simpl. apply Z.ltb_lt in Hn. rewrite Hn.
    simpl. by rewrite andb_false_r. }
  destruct (not_validated env request b w Hb Hv) as [message E].
  do 3 (split; [by rewrite E|]).
  intros Ho Hk. rewrite (POST_too_many env request b w); try done.
  - rewrite Ho, Hd. simpl.
    destruct (String.eqb_spec d "") as [->|]; [|done].
    vm_compute in Hn. discriminate Hn.
  - by rewrite Hd.
Qed.

Lemma too_many_destinations_rejected_witness :
  let b := {| origins := Some "34.0,-6.0"; destinations := Some twentySix;
              mode := None; units := None; language := None |} in
  let env := answering 200 (Resolved matrix) 0 0 in
  let request := {| request_json := Resolved b |} in
  (MAX_DESTINATIONS < destinationCount twentySix)%Z
  ∧ (POST env request emptyWorld).1
    = error_response 400 "Exceeds max 25 destinations."
  ∧ (POST env request emptyWorld).2 = emptyWorld.
Proof.
  intros b env request.
  assert (Hn : (MAX_DESTINATIONS < destinationCount twentySix)%Z)
    by (vm_compute; reflexivity).
  destruct (too_many_destinations_rejected env request b twentySix emptyWorld
              eq_refl eq_refl Hn) as (_ & Hw & _ & Htext).
  split; [exact Hn|]. split; [exact (Htext eq_refl eq_refl) | exact Hw].
Defined.

(** The empty string splits into one piece, which the count check lets
    through. *)
Lemma count_check_passes_empty : ¬ countCheckRefuses "".
Proof. unfold countCheckRefuses. vm_compute. intros [=]. Qed.

(** C8. An empty [destinations] string never reaches the coordinate parser:
    the presence check of lines 25-27 answers it with status 400 and
    "Missing origins or destinations", leaving the world untouched.  A call
    that has any effect at all (the cache read comes before the parser) has a
    destination string that is not empty.  The count check is not what stops
    the empty string: it counts one destination. *)
Theorem empty_destinations_never_parsed env request b w :
  request_json request = Resolved b →
  (destinations b = Some "" →
   POST env request w
   = (error_response 400 "Missing origins or destinations", w))
  ∧ (trace (POST env request w).2 ≠ trace w →
     ∃ d, destinations b = Some d ∧ d ≠ "")
  ∧ destinationCount "" = 1%Z.
Proof.
  intros Hb. split; [|split; [|reflexivity]].
  - intros Hd. apply (POST_missing _ _ b); [done|].
    rewrite Hd. apply andb_false_r.
  - intros Ht. destruct (validated env b) eqn:Hv.
    + destruct (validated_inv _ _ Hv) as (_ & d & _ & _ & _ & Hd & ? & _).
      by exists d.
    + destruct (not_validated env request b w Hb Hv) as [m E].
      rewrite E in Ht. done.
Qed.

Lemma empty_destinations_never_parsed_witness :
  let b := {| origins := Some "34.0,-6.0"; destinations := Some "";
              mode := None; units := None; language := None |} in
  let env := answering 200 (Resolved matrix) 0 0 in
  let request := {| request_json := Resolved b |} in
  POST env request emptyWorld
  = (error_response 400 "Missing origins or destinations", emptyWorld).
Proof.
  intros b env request.
  exact (proj1 (empty_destinations_never_parsed env request b emptyWorld eq_refl)
           eq_refl).
Defined.

(** ** The answer of the Routes API *)

(** Line 95 reads the body of the answer before line 97 looks at the status:
    a 429 whose body is not JSON ends in the [catch] block, with status
    500. *)
Lemma rate_limit_with_unreadable_body :
  ¬ rateLimitReported
      (answering 429 (Rejected "Unexpected token '<'") 0 0)
      rabatRequest rabatBody emptyWorld.
Proof.
  intros H. destruct H as [H _]; try reflexivity.
  - intros entry [He _]. vm_compute in He. discriminate He.
  - eexists. split; reflexivity.
  - vm_compute in H. discriminate H.
Qed.

(** C5. The failing input of the claim: the Routes API answers 429 with a
    body that is not JSON, an HTML error page for one.  The handler means to
    pass the rate limit on (lines 97-101) and does so when the body can be
    read, as the second half shows; here [response.json()] of line 95 has
    thrown before the status is looked at, and the answer is that of the
    [catch] block: status 500 with the message of the parser.  The cache is
    left as it was in both cases. *)
Theorem rate_limit_lost_with_unreadable_body :
  let unreadable := answering 429 (Rejected "Unexpected token '<'") 0 0 in
  let readable := answering 429 (Resolved (error_object "Quota exceeded")) 0 0 in
  POST unreadable rabatRequest emptyWorld
  = (error_response 500 "Unexpected token '<'",
     called unreadable rabatBody (looked rabatBody emptyWorld))
  ∧ POST readable rabatRequest emptyWorld
    = (error_response 429 "Rate limit exceeded. Try later.",
       called readable rabatBody (looked rabatBody emptyWorld)).
Proof. split; reflexivity. Qed.

(** Whatever the body of a 429 answer, the cache is left as it was and the
    only effects are the cache read and the outbound call; when the body
    parses as JSON the response has status 429 and the text "Rate limit
    exceeded. Try later.". *)
Lemma rate_limit_passed_on env request b w r :
  request_json request = Resolved b →
  validated env b = true →
  (∀ entry, ¬ freshEntry env b (cache w) entry) →
  fetch env (outboundCall env b) = Resolved r →
  upstream_status r = 429%Z →
  cache (POST env request w).2 = cache w
  ∧ (POST env request w).2 = called env b (looked b w)
  ∧ ((∃ value, upstream_json r = Resolved value) →
     (POST env request w).1
     = error_response 429 "Rate limit exceeded. Try later.").
Proof.
  intros Hb Hv Hstale Hf Hs.
  destruct (validated_inv _ _ Hv) as (o & d & k & Ho & _ & Hd & _).
  rewrite (POST_miss _ _ b), (upstream_run _ _ _ o d), Hf by done.
  destruct (upstream_json r) as [value|message].
  - rewrite handleResponse_429 by done. split; [done|]. split; done.
  - split; [done|]. split; [done|]. intros [? [=]].
Qed.

Lemma rate_limit_passed_on_witness :
  let env := answering 429 (Resolved (error_object "Quota exceeded")) 0 0 in
  (POST env rabatRequest emptyWorld).1
  = error_response 429 "Rate limit exceeded. Try later."
  ∧ cache (POST env rabatRequest emptyWorld).2 = ∅.
Proof.
  intros env.
  assert (Hstale : ∀ entry, ¬ freshEntry env rabatBody (cache emptyWorld) entry).
  { intros entry [He _]. vm_compute in He. discriminate He. }
  destruct (rate_limit_passed_on env rabatRequest rabatBody emptyWorld _
              eq_refl eq_refl Hstale eq_refl eq_refl) as (Hc & _ & Hr).
  split; [apply Hr; eexists; reflexivity | exact Hc].
Defined.

(** Line 105 stores a truthy payload only: the answer [false] is returned
    and not stored. *)
Lemma falsy_success_not_stored :
  ¬ successStored (answering 200 (Resolved (JBool false)) 0 0)
      rabatRequest rabatBody emptyWorld.
Proof.
  intros H. destruct (H eq_refl eq_refl) with
    (r := {| upstream_status := 200; upstream_json := Resolved (JBool false) |})
    (value := JBool false) as [_ H2]; try reflexivity.
  - intros entry [He _]. vm_compute in He. discriminate He.
  - vm_compute in H2. discriminate H2.
Qed.

(** C6. On a cache miss, an answer with a success status whose body parses
    to a truthy JSON value is stored under the fingerprint, with the time of
    the store, and returned verbatim with status 200.  No call changes the
    cache in any other way. *)
Theorem success_stored_and_returned env request w :
  (∀ b r value,
     request_json request = Resolved b →
     validated env b = true →
     (∀ entry, ¬ freshEntry env b (cache w) entry) →
     fetch env (outboundCall env b) = Resolved r →
     ok r = true →
     upstream_json r = Resolved value →
     truthy value = true →
     POST env request w
     = (json_response value,
        stored env (fingerprint b) value (called env b (looked b w))))
  ∧ (cache (POST env request w).2 = cache w
     ∨ ∃ b r value,
         request_json request = Resolved b ∧ validated env b = true
         ∧ (∀ entry, ¬ freshEntry env b (cache w) entry)
         ∧ fetch env (outboundCall env b) = Resolved r
         ∧ ok r = true ∧ upstream_json r = Resolved value
         ∧ truthy value = true
         ∧ cache (POST env request w).2
           = <[fingerprint b := {| data := value;
                                   timestamp := now_at_store env |}]> (cache w)).
Proof.
  split.
  - intros b r value. apply POST_stored.
  - destruct (POST_effects env request w)
      as [E|[(b & _ & _ & [E|E])|(b & r & value & ? & ? & ? & ? & ? & ? & ? & E)]].
    + left. by rewrite E.
    + left. by rewrite E.
    + left. by rewrite E.
    + right. exists b, r, value. rewrite E. done.
Qed.

Lemma success_stored_and_returned_witness :
  let env := answering 200 (Resolved matrix) 0 7 in
  POST env rabatRequest emptyWorld
  = (json_response matrix,
     stored env (fingerprint rabatBody) matrix
       (called env rabatBody (looked rabatBody emptyWorld))).
Proof.
  intros env.
  apply (proj1 (success_stored_and_returned env rabatRequest emptyWorld)
           rabatBody
           {| upstream_status := 200; upstream_json := Resolved matrix |}
           matrix); try reflexivity.
  intros entry [He _]. vm_compute in He. discriminate He.
Defined.

(** ** Two calls with the same parameters *)

(** An answer that is not a success is not stored (lines 97-103 return
    before line 107), so the second call goes out as well. *)
Lemma failed_call_repeated :
  let env := answering 429 (Resolved (error_object "Quota exceeded")) 0 0 in
  ¬ repeatedCallCoalesced env env rabatRequest rabatBody emptyWorld.
Proof.
  intros env H.
  destruct H as [(calls & Hc & Hlen) _]; try reflexivity.
  vm_compute in Hc. subst calls. simpl in Hlen. lia.
Qed.

(** C2. When the first of two calls with the same body obtains a payload,
    from the cache or from a successful answer with a truthy body, and the
    second call reads the cache while that entry is younger than the TTL,
    the two calls issue at most one outbound call between them and the
    second response is the first, whether or not the sweep has run in
    between.  Both read the cache under the same fingerprint, the
    concatenation [origins|destinations|mode|units|language] with DRIVE,
    METRIC and fr for the fields left out. *)
Theorem repeated_call_answered_from_cache env1 env2 request b w value sweep :
  request_json request = Resolved b →
  validated env1 b = true → validated env2 b = true →
  answeredAndStillFresh env1 env2 b w value →
  (∀ now, sweep = Some now → (now ≤ now_at_lookup env2)%Z) →
  let first := POST env1 request w in
  let second := POST env2 request (sweepAt sweep first.2) in
  first.1 = json_response value
  ∧ second.1 = first.1
  ∧ (∃ calls, fetches (trace second.2) = fetches (trace w) ++ calls
              ∧ (length calls ≤ 1)%nat)
  ∧ lookups (trace second.2)
    = lookups (trace w) ++ [fingerprint b; fingerprint b]
  ∧ (∀ o d, origins b = Some o → destinations b = Some d →
       fingerprint b
       = o +:+ "|" +:+ d +:+ "|" +:+ default "DRIVE" (mode b) +:+ "|"
         +:+ default "METRIC" (units b) +:+ "|" +:+ default "fr" (language b)).
Proof.
  intros Hb Hv1 Hv2 H Hsweep first second. subst first second.
  assert (Hkey : ∀ o d, origins b = Some o → destinations b = Some d →
            fingerprint b
            = o +:+ "|" +:+ d +:+ "|" +:+ default "DRIVE" (mode b) +:+ "|"
              +:+ default "METRIC" (units b) +:+ "|" +:+ default "fr" (language b)).
  { intros o d Ho Hd. unfold fingerprint, cacheKey. by rewrite Ho, Hd. }
  assert (Htrace : ∀ w', trace (sweepAt sweep w') = trace w')
    by (intros w'; by destruct sweep).
  destruct H as [(entry & He & <- & Hage)|(Hstale & (r & Hf & Hok & Hj & Ht) & Hage)].
  - rewrite (POST_hit env1 request b w entry) by done. simpl.
    rewrite (POST_hit env2 request b _ entry).
    2,3: done.
    2:{ apply (freshEntry_swept _ _ (cache w)); [done| |done].
        destruct He as [He _]. split; done. }
    simpl. rewrite Htrace. simpl.
    split; [done|]. split; [done|]. split; [|split; [|done]].
    + exists []. rewrite ?fetches_app. simpl. rewrite ?app_nil_r.
      split; [done|lia].
    + rewrite ?lookups_app. simpl. rewrite <- ?app_assoc. done.
  - rewrite (POST_stored env1 request b w r value) by done. simpl.
    rewrite (POST_hit env2 request b _
               {| data := value; timestamp := now_at_store env1 |}).
    2,3: done.
    2:{ eapply freshEntry_swept; [done| |done].
        split; [|done]. simpl. apply lookup_insert_eq. }
    simpl. rewrite Htrace. simpl.
    split; [done|]. split; [done|]. split; [|split; [|done]].
    + exists [outboundCall env1 b]. rewrite ?fetches_app. simpl.
      rewrite ?app_nil_r. split; [done|lia].
    + rewrite ?lookups_app. simpl. rewrite ?app_nil_r, <- ?app_assoc. done.
Qed.

Lemma repeated_call_answered_from_cache_witness :
  let env1 := answering 200 (Resolved matrix) 1000 1200 in
  let env2 := answering 200 (Resolved JNull) 300000 300100 in
  let first := POST env1 rabatRequest emptyWorld in
  let second := POST env2 rabatRequest (sweepAt (Some 299000%Z) first.2) in
  answeredAndStillFresh env1 env2 rabatBody emptyWorld matrix
  ∧ second.1 = json_response matrix
  ∧ (∃ calls, fetches (trace second.2) = fetches (trace emptyWorld) ++ calls
              ∧ (length calls ≤ 1)%nat)
  ∧ fingerprint rabatBody = "34.0,-6.0|34.1,-6.1|34.2,-6.2|DRIVE|METRIC|fr".
Proof.
  intros env1 env2 first second.
  assert (H : answeredAndStillFresh env1 env2 rabatBody emptyWorld matrix).
  { right. split; [|split].
    - intros entry [He _]. vm_compute in He. discriminate He.
    - eexists. repeat split; reflexivity.
    - vm_compute. reflexivity. }
  assert (Hs : ∀ now, Some 299000%Z = Some now → (now ≤ now_at_lookup env2)%Z).
  { intros now [= <-]. vm_compute. intros [=]. }
  destruct (repeated_call_answered_from_cache env1 env2 rabatRequest rabatBody
              emptyWorld matrix (Some 299000%Z) eq_refl eq_refl eq_refl H Hs)
    as (H1 & H2 & H3 & _ & H5).
  split; [exact H|]. split; [exact (eq_trans H2 H1)|].
  split; [exact H3|].
  exact (H5 _ _ eq_refl eq_refl).
Defined.

(** ** The wire format *)





(** The round trip of the specification: one origin, two destinations, the
    numbers being those of the pieces of the two strings. *)
Example wire_format_round_trip :
  wirePayload rabatBody
  = {| Wire.origins := [point (Some (Number "34.0")) (Some (Number "-6.0"))];
       Wire.destinations :=
         [point (Some (Number "34.1")) (Some (Number "-6.1"));
          point (Some (Number "34.2")) (Some (Number "-6.2"))];
       Wire.travelMode := "DRIVE";
       Wire.languageCode := "fr";
       Wire.units := "METRIC" |}.
Proof. reflexivity. Qed.

(** ** Letter case *)

Lemma length_toUpperCase s : String.length (toUpperCase s) = String.length s.
Proof. induction s as [|c s IH]; simpl; congruence. Qed.

Lemma append_inj_length a b x y :
  String.length a = String.length b → a +:+ x = b +:+ y → a = b ∧ x = y.
Proof.
  revert b. induction a as [|c a IH]; intros [|c' b]; simpl; try discriminate.
  - done.
  - intros [= Hl] [= -> E]. destruct (IH b Hl E) as [-> ->]. done.
Qed.

Lemma append_inv_head a x y : a +:+ x = a +:+ y → x = y.
Proof. intros E. by destruct (append_inj_length a a x y eq_refl E). Qed.

Lemma upper_case_equal_length s t :
  toUpperCase s = toUpperCase t → String.length s = String.length t.
Proof.
  intros E. rewrite <- (length_toUpperCase s), <- (length_toUpperCase t).
  by rewrite E.
Qed.

(** A call writes the cache under its own fingerprint only. *)
Lemma POST_other_key env request b w key :
  request_json request = Resolved b →
  key ≠ fingerprint b →
  cache (POST env request w).2 !! key = cache w !! key.
Proof.
  intros Hb Hne.
  destruct (POST_effects env request w)
    as [E|[(b' & _ & _ & [E|E])|(b' & r & value & Hb' & _ & _ & _ & _ & _ & _ & E)]];
    rewrite E; try done.
  simpl. rewrite Hb in Hb'. injection Hb' as <-.
  by rewrite lookup_insert_ne.
Qed.

(** C9. Two bodies that differ in the letter case of the mode or of the
    units only are sent to the Routes API as the same request body, but have
    different fingerprints: what one call stores is not found by the other,
    which issues its own outbound call with that same body.  (Exchanging the
    two bodies gives the other direction.) *)
Theorem case_variants_share_payload_not_cache b1 b2 :
  origins b1 = origins b2 →
  destinations b1 = destinations b2 →
  default "fr" (language b1) = default "fr" (language b2) →
  toUpperCase (default "DRIVE" (mode b1)) = toUpperCase (default "DRIVE" (mode b2)) →
  toUpperCase (default "METRIC" (units b1))
  = toUpperCase (default "METRIC" (units b2)) →
  default "DRIVE" (mode b1) ≠ default "DRIVE" (mode b2)
  ∨ default "METRIC" (units b1) ≠ default "METRIC" (units b2) →
  wirePayload b1 = wirePayload b2
  ∧ fingerprint b1 ≠ fingerprint b2
  ∧ ∀ env1 env2 request1 request2 w,
      request_json request1 = Resolved b1 →
      request_json request2 = Resolved b2 →
      validated env2 b2 = true →
      (∀ entry, ¬ freshEntry env2 b2 (cache w) entry) →
      let first := POST env1 request1 w in
      cache first.2 !! fingerprint b2 = cache w !! fingerprint b2
      ∧ fetches (trace (POST env2 request2 first.2).2)
        = fetches (trace first.2)
          ++ [fetchCall (template (GOOGLE_MAPS_API_KEY env2)) (wirePayload b1)].
Proof.
  intros Ho Hd Hl Hm Hu Hne.
  assert (Hp : wirePayload b1 = wirePayload b2).
  { unfold wirePayload, requestBody. by rewrite Ho, Hd, Hl, Hm, Hu. }
  assert (Hk : fingerprint b1 ≠ fingerprint b2).
  { unfold fingerprint, cacheKey. rewrite Ho, Hd, Hl. intros E.
    do 4 apply append_inv_head in E.
    apply append_inj_length in E as [Em E]; [|by apply upper_case_equal_length].
    apply append_inv_head in E.
    apply append_inj_length in E as [Eu _]; [|by apply upper_case_equal_length].
    destruct Hne; done. }
  split; [done|]. split; [done|].
  intros env1 env2 request1 request2 w Hb1 Hb2 Hv2 Hstale first.
  assert (Hc : cache first.2 !! fingerprint b2 = cache w !! fingerprint b2).
  { apply (POST_other_key env1 request1 b1); [done|]. by intros E. }
  split; [done|].
  assert (Hstale' : ∀ entry, ¬ freshEntry env2 b2 (cache first.2) entry).
  { intros entry [He Hage]. apply (Hstale entry). split; [|done]. by rewrite <- Hc. }
  rewrite Hp.
  destruct (POST_miss_cases env2 request2 b2 first.2 Hb2 Hv2 Hstale')
    as [[E _]|(r & value & _ & _ & _ & _ & E)]; rewrite E; simpl;
    rewrite ?fetches_app; simpl; rewrite ?app_nil_r; done.
Qed.

Lemma case_variants_share_payload_not_cache_witness :
  let lower := {| origins := Some "34.0,-6.0";
                  destinations := Some "34.1,-6.1|34.2,-6.2";
                  mode := Some "drive"; units := None; language := None |} in
  wirePayload lower = wirePayload rabatBody
  ∧ fingerprint lower ≠ fingerprint rabatBody.
Proof.
  intros lower.
  destruct (case_variants_share_payload_not_cache lower rabatBody
              eq_refl eq_refl eq_refl eq_refl eq_refl) as (H1 & H2 & _).
  - left. simpl. intros [=].
  - split; [exact H1 | exact H2].
Defined.

(** ** Scenarios *)

(** At the boundary: an entry one millisecond younger than the TTL is
    served, an entry exactly as old as the TTL is not. *)
Example ttl_boundary :
  let env := answering 200 (Resolved matrix) 400000 400050 in
  let aged (t : Z) :=
    {| cache := {[fingerprint rabatBody :=
                    {| data := JStr "cached"; timestamp := t |}]};
       trace := [] |} in
  (POST env rabatRequest (aged (400000 - CACHE_TTL_MS + 1)%Z)).1
  = json_response (JStr "cached")
  ∧ fetches (trace (POST env rabatRequest
                      (aged (400000 - CACHE_TTL_MS + 1)%Z)).2) = []
  ∧ (POST env rabatRequest (aged (400000 - CACHE_TTL_MS)%Z)).1
    = json_response matrix
  ∧ fetches (trace (POST env rabatRequest (aged (400000 - CACHE_TTL_MS)%Z)).2)
    = [outboundCall env rabatBody].
Proof. repeat split; vm_compute; reflexivity. Qed.

(** Another error status is passed on with the message of the provider, or
    with "Unknown". *)
Example upstream_error_text :
  (POST (answering 503
           (Resolved (JObj [("error", JObj [("message", JStr "Backend down")])]))
           0 0) rabatRequest emptyWorld).1
  = error_response 503 "HTTP Error: 503 - Backend down"
  ∧ (POST (answering 403 (Resolved (JObj [])) 0 0) rabatRequest emptyWorld).1
    = error_response 403 "HTTP Error: 403 - Unknown".
Proof. split; vm_compute; reflexivity. Qed.

(** A success whose body is [null] ends in the [catch] block: line 109
    reads [data.error]. *)
Example null_success :
  POST (answering 200 (Resolved JNull) 0 0) rabatRequest emptyWorld
  = (error_response 500 "Cannot read properties of null (reading 'error')",
     called (answering 200 (Resolved JNull) 0 0) rabatBody
       (looked rabatBody emptyWorld)).
Proof. vm_compute. reflexivity. Qed.

End RouteMatrixFacts.

(* ===================================================================== *)
(** * Properties of the bearer-token check                                 *)
(* ===================================================================== *)

Module ServerAuthFacts.
Import ServerAuth ServerAuthSpec.

Lemma split_without_separator sep s :
  occurs sep s = false → split sep s = [s].
Proof.
  unfold split. induction s as [|c s IH]; simpl; [done|].
  intros [Hp Hs]%orb_false_iff. rewrite Hp, (IH Hs). done.
Qed.

Lemma split_head sep s : ∃ piece pieces, split sep s = piece :: pieces.
Proof.
  unfold split. generalize 0%nat.
  induction s as [|c s IH]; intros skip; simpl; [by do 2 eexists|].
  destruct skip; [|apply IH].
  match goal with |- context [if ?t then _ else _] => destruct t end;
    [by do 2 eexists|].
  destruct (IH 0%nat) as (piece & pieces & ->). by do 2 eexists.
Qed.

(** The token of [Bearer t] is the part of [t] before its first
    ["Bearer "], which is [t] itself when there is none. *)
Lemma bearerToken_prefix t :
  bearerToken ("Bearer " +:+ t) = head (split "Bearer " t).
Proof.
  assert (E : split "Bearer " ("Bearer " +:+ t) = "" :: split "Bearer " t)
    by (destruct t; reflexivity).
  unfold bearerToken. rewrite E.
  by destruct (split_head "Bearer " t) as (piece & pieces & ->).
Qed.

Lemma bearerToken_plain t :
  occurs "Bearer " t = false → bearerToken ("Bearer " +:+ t) = Some t.
Proof.
  intros H. by rewrite bearerToken_prefix, split_without_separator.
Qed.

Lemma startsWith_bearer t : startsWith ("Bearer " +:+ t) "Bearer " = true.
Proof. unfold startsWith. destruct t; reflexivity. Qed.

Lemma verifyAuthToken_verdict admin request :
  verifyAuthToken admin request = Resolved (verdict admin request).
Proof.
  unfold verifyAuthToken, verdict, try_async, mbind, awaited_bind, mret,
    awaited_ret, bearerToken.
  destruct (authorization request) as [h|]; [|reflexivity]. simpl.
  destruct (String.eqb_spec h "") as [->|_]; [reflexivity|]. simpl.
  destruct (startsWith h "Bearer "); [|reflexivity]. simpl.
  destruct (split "Bearer " h !! 1%nat) as [token|]; [|reflexivity]. simpl.
  destruct (String.eqb token ""); [reflexivity|]. simpl.
  destruct (auth admin) as [service|]; [|reflexivity].
  destruct (verifyIdToken service token); reflexivity.
Qed.

(** C10. [verifyAuthToken] always resolves.  It resolves with the user id
    of the decoded token when the header is [Bearer t] for a token [t] the
    verifier accepts, and with [null] when the header is absent, does not
    start with ["Bearer "], carries an empty token, or when [auth()] throws
    or the verifier rejects the token taken from the header. *)
Theorem verifyAuthToken_total admin request :
  (∃ result, verifyAuthToken admin request = Resolved result)
  ∧ (∀ t service decoded,
       authorization request = Some ("Bearer " +:+ t) →
       t ≠ "" → occurs "Bearer " t = false →
       auth admin = Resolved service →
       verifyIdToken service t = Resolved decoded →
       verifyAuthToken admin request = Resolved (Some (uid decoded)))
  ∧ (authorization request = None →
     verifyAuthToken admin request = Resolved None)
  ∧ (∀ h, authorization request = Some h → startsWith h "Bearer " = false →
       verifyAuthToken admin request = Resolved None)
  ∧ (authorization request = Some "Bearer " →
     verifyAuthToken admin request = Resolved None)
  ∧ (∀ h token message,
       authorization request = Some h →
       bearerToken h = Some token →
       (auth admin = Rejected message
        ∨ ∃ service, auth admin = Resolved service
                     ∧ verifyIdToken service token = Rejected message) →
       verifyAuthToken admin request = Resolved None).
Proof.
  rewrite verifyAuthToken_verdict. unfold verdict. repeat split.
  - by eexists.
  - intros t service decoded -> Ht Hocc -> Hd.
    rewrite startsWith_bearer, (bearerToken_plain t Hocc).
    destruct (String.eqb_spec t ""); [done|]. by rewrite Hd.
  - by intros ->.
  - by intros h -> ->.
  - by intros ->.
  - intros h token message -> -> Hfail.
    destruct (startsWith h "Bearer "), (String.eqb token ""); try done.
    by destruct Hfail as [->|(service & -> & ->)].
Qed.

Lemma verifyAuthToken_total_witness :
  verifyAuthToken (accepting jwt "user-1")
    {| authorization := Some ("Bearer " +:+ jwt) |}
  = Resolved (Some "user-1")
  ∧ verifyAuthToken (accepting jwt "user-1")
      {| authorization := Some "Bearer forged" |}
    = Resolved None.
Proof.
  split.
  - apply (proj1 (proj2 (verifyAuthToken_total (accepting jwt "user-1")
                           {| authorization := Some ("Bearer " +:+ jwt) |}))
             jwt (acceptingService jwt "user-1") {| uid := "user-1" |}
             eq_refl); try reflexivity.
    intros [=].
  - apply (proj2 (proj2 (proj2 (proj2 (proj2
             (verifyAuthToken_total (accepting jwt "user-1")
                {| authorization := Some "Bearer forged" |})))))
             "Bearer forged" "forged" "Decoding Firebase ID token failed."
             eq_refl eq_refl).
    right. eexists. split; reflexivity.
Defined.

End ServerAuthFacts.

(* ===================================================================== *)
(** * Further properties of the route-matrix proxy                         *)
(* ===================================================================== *)

Module RouteMatrixMoreFacts.
Import RouteMatrix RouteMatrixSpec RouteMatrixMoreSpec RouteMatrixFacts.

(** ** Splitting on one character *)

Lemma append_nil_l s : "" +:+ s = s.
Proof. reflexivity. Qed.

Lemma append_cons x a b : String x a +:+ b = String x (a +:+ b).
Proof. reflexivity. Qed.

Lemma prefix_empty s : String.prefix "" s = true.
Proof. by destruct s. Qed.

Lemma prefix_char c x rest :
  String.prefix (String c "") (String x rest) = Ascii.eqb x c.
Proof.
  simpl. destruct (ascii_dec c x) as [->|Hne].
  - by rewrite prefix_empty, Ascii.eqb_refl.
  - symmetry. apply Ascii.eqb_neq. congruence.
Qed.

Lemma split_char_step c x rest :
  split (String c "") (String x rest)
  = if Ascii.eqb x c then "" :: split (String c "") rest
    else match split (String c "") rest with
         | piece :: pieces => String x piece :: pieces
         | [] => [String x ""]
         end.
Proof.
  unfold split. cbn [split_from]. by rewrite prefix_char.
Qed.

Lemma split_char_app c a b :
  contains c a = false →
  split (String c "") (a +:+ String c b) = a :: split (String c "") b.
Proof.
  induction a as [|x a IH]; cbn [contains];
    rewrite ?append_nil_l, ?append_cons.
  - intros _. by rewrite split_char_step, Ascii.eqb_refl.
  - intros [Hx Ha]%orb_false_iff. rewrite split_char_step, Hx, (IH Ha). done.
Qed.

Lemma split_char_plain c a :
  contains c a = false → split (String c "") a = [a].
Proof.
  induction a as [|x a IH]; cbn [contains]; [done|].
  intros [Hx Ha]%orb_false_iff. rewrite split_char_step, Hx, (IH Ha). done.
Qed.

Lemma split_char_nonempty c s : split (String c "") s ≠ [].
Proof.
  induction s as [|x s IH]; [done|]. rewrite split_char_step.
  destruct (Ascii.eqb x c); [done|].
  by destruct (split (String c "") s).
Qed.

Lemma split_char_concat c a b :
  split (String c "") (a +:+ String c b)
  = split (String c "") a ++ split (String c "") b.
Proof.
  induction a as [|x a IH]; rewrite ?append_nil_l, ?append_cons.
  - by rewrite split_char_step, Ascii.eqb_refl.
  - rewrite !split_char_step, IH. destruct (Ascii.eqb x c); [done|].
    pose proof (split_char_nonempty c a).
    by destruct (split (String c "") a).
Qed.

(** ** The sweep *)

(** X1. After a sweep the cache holds exactly the entries it held whose
    age does not exceed the TTL, unchanged; a later sweep makes an earlier
    one redundant (and a sweep repeated at the same instant changes
    nothing). *)
Theorem sweep_keeps_young_entries now later (c : gmap string CacheEntry) :
  (now ≤ later)%Z →
  (∀ key entry,
     cleanupCache now c !! key = Some entry
     ↔ c !! key = Some entry ∧ (now - timestamp entry ≤ CACHE_TTL_MS)%Z)
  ∧ cleanupCache later (cleanupCache now c) = cleanupCache later c
  ∧ cleanupCache now (cleanupCache now c) = cleanupCache now c.
Proof.
  intros Hle. split; [intros; apply cleanupCache_lookup|].
  split; apply map_eq; intros key; apply option_eq; intros entry;
    rewrite !cleanupCache_lookup; intuition lia.
Qed.

Lemma sweep_keeps_young_entries_witness :
  let old := {| data := JStr "old"; timestamp := 0 |} in
  let young := {| data := JStr "young"; timestamp := 1 |} in
  let c : gmap string CacheEntry := {[ "a" := old; "b" := young ]} in
  cleanupCache (CACHE_TTL_MS + 1) c !! "a" = None
  ∧ cleanupCache (CACHE_TTL_MS + 1) c !! "b" = Some young
  ∧ cleanupCache (CACHE_TTL_MS + 9) (cleanupCache (CACHE_TTL_MS + 1) c)
    = cleanupCache (CACHE_TTL_MS + 9) c.
Proof.
  intros old young c.
  assert (Hle : (CACHE_TTL_MS + 1 ≤ CACHE_TTL_MS + 9)%Z) by (vm_compute; intros [=]).
  destruct (sweep_keeps_young_entries (CACHE_TTL_MS + 1) (CACHE_TTL_MS + 9) c Hle)
    as (Hl & Ht & _).
  split; [|split; [|exact Ht]].
  - destruct (cleanupCache (CACHE_TTL_MS + 1) c !! "a") as [e|] eqn:E; [|done].
    apply Hl in E as [E Hage]. vm_compute in E. injection E as <-.
    vm_compute in Hage. by destruct Hage.
  - apply Hl. split; [reflexivity|]. vm_compute. intros [=].
Defined.

Lemma POST_invalid env request b w :
  request_json request = Resolved b →
  validated env b = false →
  POST env request w = (error_response 400 (rejection env b), w).
Proof.
  intros Hb Hv. unfold rejection.
  destruct (truthy_string (origins b) && truthy_string (destinations b)) eqn:H1.
  2:{ by apply (POST_missing _ _ b). }
  destruct (truthy_string (GOOGLE_MAPS_API_KEY env)) eqn:H2.
  2:{ by apply (POST_no_key _ _ b). }
  apply (POST_too_many _ _ b); try done.
  unfold validated in Hv. rewrite H1, H2 in Hv. simpl in Hv.
  apply negb_false_iff, Z.ltb_lt in Hv. done.
Qed.

Lemma handleResponse_trace env key r value w w' :
  trace w = trace w' →
  trace (try_return (handleResponse env key r value) internalError w).2
  = trace (try_return (handleResponse env key r value) internalError w').2.
Proof.
  intros Ht.
  destruct (handleResponse_effects env key r value w) as [[E H]|(? & ? & E)],
    (handleResponse_effects env key r value w') as [[E' H']|(? & ? & E')];
    rewrite E, E'; simpl; try done.
  - exfalso. by apply H.
  - exfalso. by apply H'.
  - by rewrite Ht.
Qed.

Lemma upstream_trace env b w w' o d :
  origins b = Some o → destinations b = Some d →
  trace w = trace w' →
  trace (try_return (upstream env b) internalError w).2
  = trace (try_return (upstream env b) internalError w').2.
Proof.
  intros Ho Hd Ht. rewrite !(upstream_run _ _ _ o d) by done.
  destruct (fetch env _) as [r|]; [|by simpl; rewrite Ht].
  destruct (upstream_json r); [|by simpl; rewrite Ht].
  apply handleResponse_trace. simpl. by rewrite Ht.
Qed.

(** Two worlds with the same trace in which the same entries count as fresh
    get the same response and the same effects. *)
Lemma POST_same_answer env request w w' :
  trace w = trace w' →
  (∀ b entry, request_json request = Resolved b →
     freshEntry env b (cache w) entry ↔ freshEntry env b (cache w') entry) →
  (POST env request w).1 = (POST env request w').1
  ∧ trace (POST env request w).2 = trace (POST env request w').2.
Proof.
  intros Ht Hfresh. destruct (request_json request) as [b|message] eqn:Hb.
  2:{ run. rewrite Hb. done. }
  destruct (validated env b) eqn:Hv.
  2:{ by rewrite !(POST_invalid _ _ b). }
  destruct (validated_inv _ _ Hv) as (o & d & k & Ho & _ & Hd & _).
  destruct (fresh_dec env b (cache w)) as [[entry He]|Hstale].
  - rewrite (POST_hit _ _ b w entry), (POST_hit _ _ b w' entry); try done.
    + simpl. by rewrite Ht.
    + by apply Hfresh.
  - rewrite (POST_miss _ _ b w), (POST_miss _ _ b w'); try done.
    + split; [by apply (upstream_response _ _ _ _ o d)|].
      apply (upstream_trace _ _ _ _ o d); try done. simpl. by rewrite Ht.
    + intros entry He. apply (Hstale entry). by apply Hfresh.
Qed.

(** X2. A sweep that runs before a request reads the clock is invisible to
    it: the response and the effects of the request (cache read, outbound
    call, cache write) are those it would have had without the sweep. *)
Theorem sweep_invisible env request w now :
  (now ≤ now_at_lookup env)%Z →
  (POST env request (sweepAt (Some now) w)).1 = (POST env request w).1
  ∧ trace (POST env request (sweepAt (Some now) w)).2
    = trace (POST env request w).2.
Proof.
  intros Hle. apply POST_same_answer; [done|].
  intros b entry _. unfold freshEntry. simpl. rewrite cleanupCache_lookup.
  intuition lia.
Qed.

Lemma sweep_invisible_witness :
  let env := answering 200 (Resolved matrix) 400000 400050 in
  let w := {| cache := {[fingerprint rabatBody :=
                           {| data := JStr "cached"; timestamp := 50000 |}]};
              trace := [] |} in
  (POST env rabatRequest (sweepAt (Some 390000%Z) w)).1 = json_response matrix
  ∧ (POST env rabatRequest w).1 = json_response matrix.
Proof.
  intros env w.
  assert (Hle : (390000 ≤ now_at_lookup env)%Z) by (vm_compute; intros [=]).
  destruct (sweep_invisible env rabatRequest w 390000 Hle) as [H _].
  assert (E : (POST env rabatRequest w).1 = json_response matrix)
    by (vm_compute; reflexivity).
  split; [exact (eq_trans H E) | exact E].
Defined.

(** ** Validation and failures *)

(** X3. With [origins] and [destinations] present, a missing or empty API
    key is answered with status 400 and "Missing API key", whatever the
    number of destinations; nothing else happens. *)
Theorem missing_key_rejected env request b w :
  request_json request = Resolved b →
  truthy_string (origins b) = true →
  truthy_string (destinations b) = true →
  GOOGLE_MAPS_API_KEY env = None ∨ GOOGLE_MAPS_API_KEY env = Some "" →
  POST env request w = (error_response 400 "Missing API key", w).
Proof.
  intros Hb Ho Hd Hk. apply (POST_no_key _ _ b); [done| |].
  - by rewrite Ho, Hd.
  - by apply truthy_string_false.
Qed.

Lemma missing_key_rejected_witness :
  let env := {| GOOGLE_MAPS_API_KEY := None; now_at_lookup := 0;
                fetch := fun _ => Rejected "unreachable"; now_at_store := 0 |} in
  let b := {| origins := Some "34.0,-6.0"; destinations := Some twentySix;
              mode := None; units := None; language := None |} in
  POST env {| request_json := Resolved b |} emptyWorld
  = (error_response 400 "Missing API key", emptyWorld).
Proof.
  intros env b.
  apply (missing_key_rejected env {| request_json := Resolved b |} b emptyWorld
           eq_refl eq_refl eq_refl).
  left. reflexivity.
Defined.

(** X4. An answer with a status from 300 to 599 other than 304 and 429 is
    passed on under its own status: the text is "HTTP Error: <status> - "
    followed by the message of the provider when it is a string that is not
    empty, and by "Unknown" when the body has no message.  The cache is not
    written. *)
Theorem upstream_error_passed_on env request b w r value :
  request_json request = Resolved b →
  validated env b = true →
  (∀ entry, ¬ freshEntry env b (cache w) entry) →
  fetch env (outboundCall env b) = Resolved r →
  upstream_json r = Resolved value →
  (300 ≤ upstream_status r ≤ 599)%Z →
  upstream_status r ≠ 304%Z → upstream_status r ≠ 429%Z →
  value ≠ JNull →
  (POST env request w).2 = called env b (looked b w)
  ∧ (∀ message,
       get_optional "message" (property "error" value) = Some (JStr message) →
       message ≠ "" →
       (POST env request w).1
       = error_response (upstream_status r)
           ("HTTP Error: " +:+ pretty (upstream_status r) +:+ " - " +:+ message))
  ∧ (get_optional "message" (property "error" value) = None →
     (POST env request w).1
     = error_response (upstream_status r)
         ("HTTP Error: " +:+ pretty (upstream_status r) +:+ " - Unknown")).
Proof.
  intros Hb Hv Hstale Hf Hj Hs H304 H429 Hnull.
  destruct (validated_inv _ _ Hv) as (o & d & k & Ho & _ & Hd & _).
  rewrite (POST_miss _ _ b), (upstream_run _ _ _ o d), Hf, Hj by done.
  assert (Hok : ok r = false).
  { unfold ok. apply andb_false_iff. right. apply Z.leb_gt. lia. }
  assert (Hcode : ∀ v, NextResponse_json v (upstream_status r)
                       = Resolved {| status := upstream_status r; payload := v |}).
  { intros v. unfold NextResponse_json.
    destruct (Z.leb_spec 200 (upstream_status r)); [|lia].
    destruct (Z.leb_spec (upstream_status r) 599); [|lia]. simpl.
    destruct (Z.eqb_spec (upstream_status r) 204); [lia|].
    destruct (Z.eqb_spec (upstream_status r) 205); [lia|].
    destruct (Z.eqb_spec (upstream_status r) 304); [lia|]. done. }
  assert (Hget : get "error" value = Resolved (property "error" value))
    by (by destruct value).
  unfold handleResponse. rewrite Hok. simpl.
  destruct (Z.eqb_spec (upstream_status r) 429); [done|].
  run. rewrite Hget. split; [|split].
  - destruct (ToString _); [|done]. by rewrite Hcode.
  - intros message -> Hm. simpl.
    destruct (String.eqb_spec message ""); [done|]. simpl. by rewrite Hcode.
  - intros ->. simpl. by rewrite Hcode.
Qed.

Lemma upstream_error_passed_on_witness :
  let answer := JObj [("error", JObj [("code", JNum 403);
                                      ("message", JStr "API key not valid")])] in
  let env := answering 403 (Resolved answer) 0 0 in
  (POST env rabatRequest emptyWorld).1
  = error_response 403 "HTTP Error: 403 - API key not valid"
  ∧ (POST env rabatRequest emptyWorld).2
    = called env rabatBody (looked rabatBody emptyWorld).
Proof.
  intros answer env.
  assert (Hstale : ∀ entry, ¬ freshEntry env rabatBody (cache emptyWorld) entry).
  { intros entry [He _]. vm_compute in He. discriminate He. }
  assert (Hs : (300 ≤ 403 ≤ 599)%Z) by (split; vm_compute; intros [=]).
  destruct (upstream_error_passed_on env rabatRequest rabatBody emptyWorld
              {| upstream_status := 403; upstream_json := Resolved answer |}
              answer eq_refl eq_refl Hstale eq_refl eq_refl Hs)
    as (Hw & Hm & _); try (intros [=]).
  split; [|exact Hw].
  apply (Hm "API key not valid" eq_refl). intros [=].
Defined.

(** X5. A failure that is thrown is answered with status 500 and the
    message of the error, "Internal Server Error" standing in for an empty
    message.  When the body of the request cannot be read nothing else
    happens; when [fetch] fails or the body of the answer cannot be read the
    outbound call has been attempted and the cache is not written. *)
Theorem thrown_failures_answered env request w message :
  (request_json request = Rejected message →
   POST env request w = (internalError message, w))
  ∧ (∀ b, request_json request = Resolved b →
          validated env b = true →
          (∀ entry, ¬ freshEntry env b (cache w) entry) →
          fetch env (outboundCall env b) = Rejected message
          ∨ (∃ r, fetch env (outboundCall env b) = Resolved r
                  ∧ upstream_json r = Rejected message) →
          POST env request w
          = (internalError message, called env b (looked b w)))
  ∧ status (internalError message) = 500%Z
  ∧ payload (internalError message)
    = error_object (if String.eqb message "" then "Internal Server Error"
                    else message).
Proof.
  split; [|split; [|done]].
  - intros Hb. run. by rewrite Hb.
  - intros b Hb Hv Hstale Hfail.
    destruct (validated_inv _ _ Hv) as (o & d & k & Ho & _ & Hd & _).
    rewrite (POST_miss _ _ b), (upstream_run _ _ _ o d) by done.
    destruct Hfail as [->|(r & -> & ->)]; done.
Qed.

Lemma thrown_failures_answered_witness :
  let env := {| GOOGLE_MAPS_API_KEY := Some "key"; now_at_lookup := 0;
                fetch := fun _ => Rejected "fetch failed"; now_at_store := 0 |} in
  POST env {| request_json := Rejected "" |} emptyWorld
  = (error_response 500 "Internal Server Error", emptyWorld)
  ∧ POST env rabatRequest emptyWorld
    = (error_response 500 "fetch failed",
       called env rabatBody (looked rabatBody emptyWorld)).
Proof.
  intros env. split.
  - exact (proj1 (thrown_failures_answered env {| request_json := Rejected "" |}
                    emptyWorld "") eq_refl).
  - apply (proj1 (proj2 (thrown_failures_answered env rabatRequest emptyWorld
                           "fetch failed")) rabatBody eq_refl eq_refl).
    + intros entry [He _]. vm_compute in He. discriminate He.
    + left. reflexivity.
Defined.

(** ** What a call does and does not do *)

(** X6. A call adds to the trace nothing, or the cache read, or the cache
    read and one outbound call, or these two and one cache write, in this
    order and under the fingerprint of its body: a call never reads or
    writes the cache twice, never issues two outbound calls, and never
    writes without having called. *)
Theorem effects_in_order env request w :
  ∃ new, added w (POST env request w) new
    ∧ (new = []
       ∨ ∃ b, request_json request = Resolved b
           ∧ (new = [CacheGet (fingerprint b)]
              ∨ new = [CacheGet (fingerprint b); Fetch (outboundCall env b)]
              ∨ ∃ entry,
                  new = [CacheGet (fingerprint b); Fetch (outboundCall env b);
                         CacheSet (fingerprint b) entry])).
Proof.
  unfold added.
  destruct (POST_effects env request w)
    as [E|[(b & Hb & _ & [E|E])|(b & r & value & Hb & _ & _ & _ & _ & _ & _ & E)]];
    rewrite E; simpl.
  - exists []. by rewrite app_nil_r; auto.
  - eexists. split; [done|]. right. exists b. auto.
  - eexists. split; [by rewrite <- app_assoc|]. right. exists b. auto.
  - eexists. split; [by rewrite <- !app_assoc|]. right. exists b.
    split; [done|]. right. right. by eexists.
Qed.

Lemma handleResponse_status env key r value w :
  let code := status (try_return (handleResponse env key r value) internalError w).1 in
  code = 200%Z ∨ code = 429%Z ∨ code = 500%Z
  ∨ (code = upstream_status r ∧ (300 ≤ code ≤ 599)%Z).
Proof.
  simpl. unfold handleResponse. destruct (ok r) eqn:Hok; simpl.
  - destruct (truthy value); run; [auto|].
    destruct (get "error" value); simpl; auto.
  - destruct (_ =? 429)%Z; [simpl; auto|]. run.
    destruct (get "error" value); [|simpl; auto].
    destruct (ToString _); [|simpl; auto].
    unfold NextResponse_json.
    destruct (Z.leb_spec 200 (upstream_status r)); [|simpl; auto].
    destruct (Z.leb_spec (upstream_status r) 599); [|simpl; auto]. simpl.
    destruct (_ || _); [simpl; auto|]. simpl.
    right. right. right. split; [done|].
    unfold ok in Hok. apply andb_false_iff in Hok as [H1|H1].
    + apply Z.leb_gt in H1. lia.
    + apply Z.leb_gt in H1. lia.
Qed.

(** X7. The status of a response is 200, 400, 429 or 500, or else the
    status of the answer of the Routes API, which then lies between 300 and
    599. *)
Theorem response_status env request w :
  let code := status (POST env request w).1 in
  code = 200%Z ∨ code = 400%Z ∨ code = 429%Z ∨ code = 500%Z
  ∨ ((300 ≤ code ≤ 599)%Z
     ∧ ∃ b r, request_json request = Resolved b
              ∧ fetch env (outboundCall env b) = Resolved r
              ∧ upstream_status r = code).
Proof.
  simpl. destruct (request_json request) as [b|message] eqn:Hb.
  2:{ run. rewrite Hb. simpl. auto. }
  destruct (validated env b) eqn:Hv.
  2:{ rewrite (POST_invalid _ _ b) by done. simpl. auto. }
  destruct (validated_inv _ _ Hv) as (o & d & k & Ho & _ & Hd & _).
  destruct (fresh_dec env b (cache w)) as [[entry He]|Hstale].
  { rewrite (POST_hit _ _ b w entry) by done. simpl. auto. }
  rewrite (POST_miss _ _ b), (upstream_run _ _ _ o d) by done.
  destruct (fetch env _) as [r|] eqn:Hf; [|simpl; auto].
  destruct (upstream_json r) as [value|]; [|simpl; auto].
  destruct (handleResponse_status env (fingerprint b) r value
              (called env b (looked b w))) as [H|[H|[H|[H1 H2]]]]; auto.
  right. right. right. right. split; [done|]. by exists b, r.
Qed.

Lemma POST_allTruthy env request w :
  allTruthy (cache w) → allTruthy (cache (POST env request w).2).
Proof.
  intros Hw.
  destruct (POST_effects env request w)
    as [E|[(b & _ & _ & [E|E])|(b & r & value & _ & _ & _ & _ & _ & _ & Ht & E)]];
    rewrite E; try done.
  simpl. intros key entry [[<- <-]|[_ He]]%lookup_insert_Some; [done|].
  by apply (Hw key).
Qed.

Lemma cleanupCache_allTruthy now c :
  allTruthy c → allTruthy (cleanupCache now c).
Proof.
  intros Hc key entry [He _]%cleanupCache_lookup. by apply (Hc key).
Qed.

Lemma history_snoc actions a :
  history (actions ++ [a]) = perform (history actions) a.
Proof. unfold history. by rewrite fold_left_app. Qed.

(** X8. Whatever calls and sweeps have taken place since the cache was
    empty, every payload in the cache is truthy; so a response taken from the
    cache never carries [null], [false], [0] or the empty string. *)
Theorem cache_holds_truthy_payloads actions env request b :
  allTruthy (cache (history actions))
  ∧ (servedFromCache b (history actions) (POST env request (history actions)) →
     truthy (payload (POST env request (history actions)).1) = true).
Proof.
  assert (H : allTruthy (cache (history actions))).
  { induction actions as [|a actions IH] using rev_ind.
    - intros key entry He. vm_compute in He. discriminate He.
    - rewrite history_snoc. destruct a as [env' request'|now]; simpl.
      + by apply POST_allTruthy.
      + by apply cleanupCache_allTruthy. }
  split; [done|]. intros (entry & He & ->). simpl. by apply (H _ _ He).
Qed.

(** ** Fingerprints *)

Lemma append_assoc a b c : (a +:+ b) +:+ c = a +:+ (b +:+ c).
Proof.
  induction a as [|x a IH]; rewrite ?append_nil_l, ?append_cons; [done|].
  by rewrite IH.
Qed.

Lemma contains_app c a b : contains c (a +:+ b) = contains c a || contains c b.
Proof.
  induction a as [|x a IH]; rewrite ?append_nil_l, ?append_cons; [done|].
  cbn [contains]. by rewrite IH, orb_assoc.
Qed.

Lemma contains_separator c a b : contains c (a +:+ String c b) = true.
Proof.
  rewrite contains_app. cbn [contains]. rewrite Ascii.eqb_refl.
  by rewrite orb_true_r.
Qed.

Lemma cancel_left c a b x y :
  contains c a = false → contains c b = false →
  a +:+ String c x = b +:+ String c y → a = b ∧ x = y.
Proof.
  revert b. induction a as [|k a IH]; intros [|k' b];
    rewrite ?append_nil_l, ?append_cons; cbn [contains].
  - by intros _ _ [= ->].
  - intros _ [Hk _]%orb_false_iff [= <- _]. by rewrite Ascii.eqb_refl in Hk.
  - intros [Hk _]%orb_false_iff _ [= -> _]. by rewrite Ascii.eqb_refl in Hk.
  - intros [_ Ha]%orb_false_iff [_ Hb]%orb_false_iff [= -> E].
    by destruct (IH b Ha Hb E) as [-> ->].
Qed.

Lemma cancel_right c a b x y :
  contains c a = false → contains c b = false →
  x +:+ String c a = y +:+ String c b → x = y ∧ a = b.
Proof.
  intros Ha Hb. revert y. induction x as [|k x IH]; intros [|k' y];
    rewrite ?append_nil_l, ?append_cons.
  - by intros [= ->].
  - intros [= <- E]. by rewrite E, contains_separator in Ha.
  - intros [= -> E]. by rewrite <- E, contains_separator in Hb.
  - intros [= -> E]. by destruct (IH y E) as [-> ->].
Qed.

Lemma cancel_right_pipe a b x y :
  contains "|" a = false → contains "|" b = false →
  (x +:+ "|") +:+ a = (y +:+ "|") +:+ b → x = y ∧ a = b.
Proof.
  intros Ha Hb. rewrite !append_assoc.
  change ("|" +:+ a) with (String "|" a). change ("|" +:+ b) with (String "|" b).
  by apply cancel_right.
Qed.

(** X9. The fingerprint tells apart two requests whose [origins], mode,
    units and language hold no ["|"]: when their fingerprints are equal, all
    five parameters are. *)
Theorem fingerprint_injective b1 b2 o1 o2 d1 d2 :
  origins b1 = Some o1 → origins b2 = Some o2 →
  destinations b1 = Some d1 → destinations b2 = Some d2 →
  contains "|" o1 = false → contains "|" o2 = false →
  contains "|" (default "DRIVE" (mode b1)) = false →
  contains "|" (default "DRIVE" (mode b2)) = false →
  contains "|" (default "METRIC" (units b1)) = false →
  contains "|" (default "METRIC" (units b2)) = false →
  contains "|" (default "fr" (language b1)) = false →
  contains "|" (default "fr" (language b2)) = false →
  fingerprint b1 = fingerprint b2 →
  o1 = o2 ∧ d1 = d2
  ∧ default "DRIVE" (mode b1) = default "DRIVE" (mode b2)
  ∧ default "METRIC" (units b1) = default "METRIC" (units b2)
  ∧ default "fr" (language b1) = default "fr" (language b2).
Proof.
  intros Ho1 Ho2 Hd1 Hd2 ? ? ? ? ? ? ? ?.
  unfold fingerprint, cacheKey. rewrite Ho1, Ho2, Hd1, Hd2. simpl.
  intros E. apply (cancel_left "|") in E as [-> E]; try done.
  rewrite <- !append_assoc in E.
  apply cancel_right_pipe in E as [E ->]; try done.
  apply cancel_right_pipe in E as [E ->]; try done.
  apply cancel_right_pipe in E as [-> ->]; try done.
Qed.

Lemma fingerprint_injective_witness :
  let other := {| origins := Some "34.0,-6.0";
                  destinations := Some "34.1,-6.1";
                  mode := None; units := None; language := None |} in
  fingerprint rabatBody ≠ fingerprint other.
Proof.
  intros other E.
  destruct (fingerprint_injective rabatBody other _ _ _ _
              eq_refl eq_refl eq_refl eq_refl eq_refl eq_refl eq_refl eq_refl
              eq_refl eq_refl eq_refl eq_refl E) as (_ & Hd & _).
  discriminate Hd.
Defined.

(** X10. Moving a ["|"] between [origins] and [destinations] does not
    change the fingerprint, although the two requests are sent to the Routes
    API with different numbers of destinations: once the answer to one of
    them is stored, the other is answered with it. *)
Theorem separator_shift_collides o d1 d2 m u l :
  let b1 := {| origins := Some (o +:+ "|" +:+ d1); destinations := Some d2;
               mode := m; units := u; language := l |} in
  let b2 := {| origins := Some o; destinations := Some (d1 +:+ "|" +:+ d2);
               mode := m; units := u; language := l |} in
  fingerprint b1 = fingerprint b2
  ∧ length (Wire.destinations (wirePayload b1))
    < length (Wire.destinations (wirePayload b2))
  ∧ ∀ env1 env2 w r value,
      validated env1 b1 = true → validated env2 b2 = true →
      (∀ entry, ¬ freshEntry env1 b1 (cache w) entry) →
      fetch env1 (outboundCall env1 b1) = Resolved r →
      ok r = true → upstream_json r = Resolved value → truthy value = true →
      (now_at_lookup env2 - now_at_store env1 < CACHE_TTL_MS)%Z →
      let first := POST env1 {| request_json := Resolved b1 |} w in
      let second := POST env2 {| request_json := Resolved b2 |} first.2 in
      second.1 = json_response value
      ∧ fetches (trace second.2) = fetches (trace first.2).
Proof.
  intros b1 b2.
  assert (Hk : fingerprint b1 = fingerprint b2).
  { unfold fingerprint, cacheKey, b1, b2. simpl. by rewrite !append_assoc. }
  split; [done|]. split.
  - unfold wirePayload, requestBody, destArray, b1, b2. cbn -[split].
    change ("|" +:+ d2) with (String "|" d2).
    rewrite !length_map, (split_char_concat "|" d1 d2), length_app.
    pose proof (split_char_nonempty "|" d1).
    destruct (split "|" d1); [done|]. simpl. lia.
  - intros env1 env2 w r value Hv1 Hv2 Hstale Hf Hok Hj Ht Hage first second.
    subst first second.
    rewrite (POST_stored env1 _ b1 w r value) by done. simpl.
    rewrite (POST_hit env2 _ b2 _
               {| data := value; timestamp := now_at_store env1 |}); try done.
    + simpl. split; [done|]. by rewrite !fetches_app, app_nil_r.
    + split; [|done]. simpl. rewrite <- Hk. apply lookup_insert_eq.
Qed.

Lemma separator_shift_collides_witness :
  let b1 := {| origins := Some "34.0,-6.0|34.1,-6.1"; destinations := Some "34.2,-6.2";
               mode := None; units := None; language := None |} in
  let env1 := answering 200 (Resolved matrix) 1000 1200 in
  let env2 := answering 200 (Resolved JNull) 2000 2200 in
  let first := POST env1 {| request_json := Resolved b1 |} emptyWorld in
  (POST env2 rabatRequest first.2).1 = json_response matrix
  ∧ fingerprint b1 = fingerprint rabatBody.
Proof.
  intros b1 env1 env2 first.
  destruct (separator_shift_collides "34.0,-6.0" "34.1,-6.1" "34.2,-6.2"
              None None None) as (Hk & _ & H).
  split; [|exact Hk].
  refine (proj1 (H env1 env2 emptyWorld
                   {| upstream_status := 200; upstream_json := Resolved matrix |}
                   matrix eq_refl eq_refl _ eq_refl eq_refl eq_refl eq_refl _)).
  - intros entry [He _]. vm_compute in He. discriminate He.
  - vm_compute. reflexivity.
Defined.

(** ** Coordinates *)

Lemma split_fold c rest p :
  forallb (fun q => negb (contains c q)) rest = true →
  split (String c "")
    (fold_left (fun acc q => acc +:+ String c "" +:+ q) rest p)
  = split (String c "") p ++ rest.
Proof.
  revert p. induction rest as [|q rest IH]; intros p; simpl.
  - by rewrite app_nil_r.
  - intros [Hq Hrest]%andb_true_iff. apply negb_true_iff in Hq.
    rewrite (IH _ Hrest).
    change (String c "" +:+ q) with (String c q).
    by rewrite split_char_concat, (split_char_plain c q Hq), <- app_assoc.
Qed.

Lemma join_split (pieces : list string) :
  pieces ≠ [] →
  forallb (fun q => negb (contains "|" q)) pieces = true →
  split "|" (join "|" pieces) = pieces.
Proof.
  intros Hne Hplain. destruct pieces as [|p rest]; [done|].
  apply andb_true_iff in Hplain as [Hp Hrest]. apply negb_true_iff in Hp.
  unfold join. rewrite (split_fold "|" rest p Hrest).
  by rewrite (split_char_plain "|" p Hp).
Qed.

(** X11. Destinations joined with ["|"] are counted and split back as they
    were: a list of texts without ["|"] that is not empty has as many
    destinations as it has elements, and splitting gives the list again.
    The empty list is the exception: its text is empty and splits into one
    empty piece. *)
Theorem join_split_round_trip (pieces : list string) :
  pieces ≠ [] →
  forallb (fun q => negb (contains "|" q)) pieces = true →
  split "|" (join "|" pieces) = pieces
  ∧ destinationCount (join "|" pieces) = Z.of_nat (length pieces)
  ∧ split "|" (join "|" []) = [""].
Proof.
  intros Hne Hplain. pose proof (join_split pieces Hne Hplain) as E.
  split; [done|]. split; [|done]. unfold destinationCount. by rewrite E.
Qed.

Lemma join_split_round_trip_witness :
  split "|" (join "|" ["34.1,-6.1"; "34.2,-6.2"; "34.3,-6.3"])
  = ["34.1,-6.1"; "34.2,-6.2"; "34.3,-6.3"]
  ∧ destinationCount twentySix = 26%Z.
Proof.
  split.
  - apply (join_split_round_trip ["34.1,-6.1"; "34.2,-6.2"; "34.3,-6.3"]);
      [intros [=] | reflexivity].
  - apply (join_split_round_trip (replicate 26 "34.1,-6.1"));
      [intros [=] | reflexivity].
Defined.

Lemma parseCoordinate_pair p :
  plainPair p = true → parseCoordinate (pairText p) = coordinateOf p.
Proof.
  destruct p as [a b]. unfold plainPair, pairText, parseCoordinate, coordinateOf.
  simpl. rewrite !andb_true_iff, !negb_true_iff. intros [[[Ha _] Hb] _].
  change ("," +:+ b) with (String "," b).
  by rewrite (split_char_app "," a b Ha), (split_char_plain "," b Hb).
Qed.

Lemma pairText_plain p :
  plainPair p = true → negb (contains "|" (pairText p)) = true.
Proof.
  destruct p as [a b]. unfold plainPair, pairText. simpl.
  rewrite !andb_true_iff, !negb_true_iff. intros [[[_ Ha] _] Hb].
  change ("," +:+ b) with (String "," b).
  rewrite contains_app, Ha. cbn [contains]. by rewrite Hb.
Qed.

(** X12. Coordinates written as ["lat,lng"] and joined with ["|"] reach the
    Routes API in the same order and number, each waypoint holding the
    numbers of its two texts; this holds for texts without [","] and
    ["|"]. *)
Theorem coordinates_round_trip origin (dests : list (string * string)) m u l :
  plainPair origin = true →
  forallb plainPair dests = true →
  dests ≠ [] →
  wirePayload {| origins := Some (pairText origin);
                 destinations := Some (join "|" (map pairText dests));
                 mode := m; units := u; language := l |}
  = requestBody (Some (Number origin.1)) (Some (Number origin.2))
      (map coordinateOf dests)
      (default "DRIVE" m) (default "METRIC" u) (default "fr" l).
Proof.
  intros Ho Hd Hne. unfold wirePayload. cbn -[split join].
  assert (Hsplit : split "|" (join "|" (map pairText dests)) = map pairText dests).
  { apply join_split; [by destruct dests|].
    rewrite forallb_forall in Hd. apply forallb_forall.
    intros q (p & <- & Hin)%in_map_iff. apply pairText_plain. by apply Hd. }
  rewrite Hsplit.
  pose proof (parseCoordinate_pair origin Ho) as Hp.
  unfold parseCoordinate, coordinateOf in Hp. injection Hp as -> ->.
  f_equal. unfold destArray. rewrite map_map.
  apply map_ext_in. intros p Hin. apply parseCoordinate_pair.
  rewrite forallb_forall in Hd. by apply Hd.
Qed.

Lemma coordinates_round_trip_witness :
  wirePayload rabatBody
  = requestBody (Some (Number "34.0")) (Some (Number "-6.0"))
      [coordinateOf ("34.1", "-6.1"); coordinateOf ("34.2", "-6.2")]
      "DRIVE" "METRIC" "fr".
Proof.
  apply (coordinates_round_trip ("34.0", "-6.0")
           [("34.1", "-6.1"); ("34.2", "-6.2")] None None None);
    [reflexivity | reflexivity | intros [=]].
Defined.

(** X13. A coordinate text without a comma gives a latitude and no
    longitude; of a text with more than two components the first two are
    used and the rest is dropped. *)
Theorem coordinate_components a b rest :
  contains "," a = false → contains "," b = false →
  parseCoordinate a = {| lat := Some (Number a); lng := None |}
  ∧ parseCoordinate (a +:+ "," +:+ b +:+ "," +:+ rest)
    = {| lat := Some (Number a); lng := Some (Number b) |}.
Proof.
  intros Ha Hb. unfold parseCoordinate. split.
  - by rewrite (split_char_plain "," a Ha).
  - change ("," +:+ b +:+ "," +:+ rest) with (String "," (b +:+ String "," rest)).
    by rewrite (split_char_app "," a _ Ha), (split_char_app "," b _ Hb).
Qed.

Lemma coordinate_components_witness :
  parseCoordinate "34.1" = {| lat := Some (Number "34.1"); lng := None |}
  ∧ parseCoordinate "34.1,-6.1,12"
    = {| lat := Some (Number "34.1"); lng := Some (Number "-6.1") |}.
Proof.
  exact (coordinate_components "34.1" "-6.1" "12" eq_refl eq_refl).
Defined.

(** X14. Every outbound call goes to the Routes API with one origin, at
    least one and at most 25 destinations, the configured key (never an
    empty one) and the field mask. *)
Theorem outbound_call_shape env request w call :
  trace w = [] →
  In call (fetches (trace (POST env request w).2)) →
  url call = routes_url ∧ method call = "POST"
  ∧ length (Wire.origins (body call)) = 1
  ∧ 1 ≤ length (Wire.destinations (body call)) ≤ 25
  ∧ headerOf "X-Goog-FieldMask" call = Some field_mask
  ∧ headerOf "X-Goog-Api-Key" call = GOOGLE_MAPS_API_KEY env
  ∧ GOOGLE_MAPS_API_KEY env ≠ Some "".
Proof.
  intros Hw Hin.
  assert (H : ∃ b, validated env b = true ∧ call = outboundCall env b).
  { destruct (POST_effects env request w)
      as [E|[(b & _ & Hv & [E|E])|(b & r & value & _ & Hv & _ & _ & _ & _ & _ & E)]];
      rewrite E in Hin; simpl in Hin; rewrite ?Hw in Hin; simpl in Hin;
      try done; destruct Hin as [<-|[]]; by exists b. }
  destruct H as (b & Hv & ->).
  destruct (validated_inv _ _ Hv) as (o & d & k & Ho & _ & Hd & _ & Hk & Hk' & Hn).
  unfold outboundCall, fetchCall, headerOf, wirePayload, requestBody, destArray.
  cbn -[split]. rewrite Hk, Hd, !length_map. cbn -[split].
  repeat split; try done.
  - pose proof (split_char_nonempty "|" d).
    destruct (split "|" d); [done|]. simpl. lia.
  - unfold destinationCount, MAX_DESTINATIONS in Hn. lia.
  - by intros [= ->].
Qed.

Lemma outbound_call_shape_witness :
  let env := answering 200 (Resolved matrix) 0 0 in
  let call := outboundCall env rabatBody in
  length (Wire.destinations (body call)) = 2
  ∧ 1 ≤ length (Wire.destinations (body call)) ≤ 25
  ∧ headerOf "X-Goog-Api-Key" call = Some "key".
Proof.
  intros env call.
  assert (Hin : In call (fetches (trace (POST env rabatRequest emptyWorld).2)))
    by (left; reflexivity).
  destruct (outbound_call_shape env rabatRequest emptyWorld call eq_refl Hin)
    as (_ & _ & _ & Hd & _ & Hk & _).
  split; [reflexivity|]. split; [exact Hd | exact Hk].
Defined.

End RouteMatrixMoreFacts.

(* ===================================================================== *)
(** * Further properties of the bearer-token check                         *)
(* ===================================================================== *)

Module ServerAuthMoreFacts.
Import ServerAuth ServerAuthSpec ServerAuthFacts ServerAuthMoreSpec.
Import RouteMatrixMoreSpec RouteMatrixMoreFacts.

Lemma claims_unfold sdk request :
  ServerAuthClaims.verifyAuthTokenWithClaims sdk request
  = Resolved (claimsVerdict sdk request).
Proof.
  unfold ServerAuthClaims.verifyAuthTokenWithClaims, claimsVerdict, try_async,
    mbind, awaited_bind, mret, awaited_ret, bearerToken.
  destruct (authorization request) as [h|]; [|reflexivity]. simpl.
  destruct (String.eqb_spec h "") as [->|_]; [reflexivity|]. simpl.
  destruct (startsWith h "Bearer "); [|reflexivity]. simpl.
  destruct (split "Bearer " h !! 1%nat) as [token|]; [|reflexivity]. simpl.
  destruct (String.eqb token ""); [reflexivity|]. simpl.
  destruct (ServerAuthClaims.auth sdk) as [service|]; [|reflexivity].
  destruct (ServerAuthClaims.verifyIdToken service token); reflexivity.
Qed.

Lemma verdict_forget sdk request :
  verdict (ServerAuthClaims.forget sdk) request
  = ServerAuthClaims.uid <$> claimsVerdict sdk request.
Proof.
  unfold verdict, claimsVerdict.
  destruct (authorization request) as [h|]; [|done].
  destruct (startsWith h "Bearer "); [|done].
  destruct (bearerToken h) as [token|]; [|done].
  destruct (String.eqb token ""); [done|]. simpl.
  destruct (ServerAuthClaims.auth sdk) as [service|]; [|done]. simpl.
  unfold mbind, awaited_bind.
  by destruct (ServerAuthClaims.verifyIdToken service token).
Qed.

(** X15. [verifyAuthToken] and [verifyAuthTokenWithClaims] agree: on every
    request the first resolves with the [uid] of the token the second
    resolves with, and with [null] exactly when the second does. *)
Theorem user_id_of_claims sdk request :
  ∃ decoded,
    ServerAuthClaims.verifyAuthTokenWithClaims sdk request = Resolved decoded
    ∧ verifyAuthToken (ServerAuthClaims.forget sdk) request
      = Resolved (ServerAuthClaims.uid <$> decoded)
    ∧ (decoded = None
       ↔ verifyAuthToken (ServerAuthClaims.forget sdk) request = Resolved None).
Proof.
  exists (claimsVerdict sdk request). split; [apply claims_unfold|].
  rewrite verifyAuthToken_verdict, verdict_forget. split; [done|].
  destruct (claimsVerdict sdk request); split; intros [=]; done.
Qed.

(** X16. [isAdmin] always resolves, and with [true] exactly when the token
    of the request is verified and its [admin] claim is the boolean [true]:
    a claim such as ["true"] or [1] does not count, and a request that
    [verifyAuthToken] refuses is never an administrator's. *)
Theorem admin_needs_true_claim sdk request :
  (∃ answer, ServerAuthClaims.isAdmin sdk request = Resolved answer)
  ∧ (ServerAuthClaims.isAdmin sdk request = Resolved true
     ↔ ∃ decoded,
         ServerAuthClaims.verifyAuthTokenWithClaims sdk request
         = Resolved (Some decoded)
         ∧ ServerAuthClaims.admin decoded = Some (JBool true))
  ∧ (verifyAuthToken (ServerAuthClaims.forget sdk) request = Resolved None →
     ServerAuthClaims.isAdmin sdk request = Resolved false).
Proof.
  unfold ServerAuthClaims.isAdmin.
  rewrite claims_unfold, verifyAuthToken_verdict, verdict_forget.
  unfold mbind, awaited_bind, mret, awaited_ret.
  destruct (claimsVerdict sdk request) as [d|]; simpl.
  - split; [by eexists|]. split; [|done]. rewrite orb_false_r. split.
    + intros [= H]. exists d. split; [done|].
      unfold ServerAuthClaims.is_true in H.
      by destruct (ServerAuthClaims.admin d) as [[| [] | | | |]|].
    + intros (d' & [= <-] & Ha). by rewrite Ha.
  - split; [by eexists|]. split; [|done]. split; [done|].
    by intros (d' & [=] & _).
Qed.

Example admin_claim_values :
  let request := {| authorization := Some ("Bearer " +:+ jwt) |} in
  ServerAuthClaims.isAdmin (acceptingWithClaim jwt "u1" (Some (JBool true))) request
  = Resolved true
  ∧ ServerAuthClaims.isAdmin (acceptingWithClaim jwt "u1" (Some (JStr "true"))) request
    = Resolved false
  ∧ ServerAuthClaims.isAdmin (acceptingWithClaim jwt "u1" (Some (JNum 1))) request
    = Resolved false
  ∧ ServerAuthClaims.isAdmin (acceptingWithClaim jwt "u1" None) request
    = Resolved false.
Proof. repeat split; vm_compute; reflexivity. Qed.

(** ** A header with a second ["Bearer "] *)

Lemma prefix_bearer_needs_space s :
  contains " " s = false → String.prefix "Bearer " s = false.
Proof.
  intros H.
  do 7 (destruct s as [|? s]; [reflexivity|];
        cbn [String.prefix];
        match goal with |- context [ascii_dec ?a ?b] =>
          destruct (ascii_dec a b) as [<-|]; [|reflexivity] end).
  exfalso. cbn [contains] in H. rewrite !orb_false_iff in H.
  by destruct H as (_ & _ & _ & _ & _ & _ & [=] & _).
Qed.

Lemma prefix_bearer_after s t :
  contains " " s = false → s ≠ "" →
  String.prefix "Bearer " (s +:+ "Bearer " +:+ t) = false.
Proof.
  intros H Hne.
  destruct s as [|c1 s]; [done|]. clear Hne.
  rewrite append_cons. cbn [String.prefix].
  destruct (ascii_dec "B" c1) as [<-|]; [|reflexivity].
  do 5 (destruct s as [|? s]; [reflexivity|];
        rewrite append_cons; cbn [String.prefix];
        match goal with |- context [ascii_dec ?a ?b] =>
          destruct (ascii_dec a b) as [<-|]; [|reflexivity] end).
  destruct s as [|c7 s]; [reflexivity|].
  rewrite append_cons. cbn [String.prefix].
  destruct (ascii_dec " " c7) as [<-|]; [|reflexivity].
  exfalso. cbn [contains] in H. rewrite !orb_false_iff in H.
  by destruct H as (_ & _ & _ & _ & _ & _ & [=] & _).
Qed.

Lemma split_step sep x r :
  split sep (String x r)
  = if String.prefix sep (String x r)
    then "" :: split_from sep (String.length sep - 1) r
    else match split sep r with
         | piece :: pieces => String x piece :: pieces
         | [] => [String x ""]
         end.
Proof. reflexivity. Qed.

Lemma split_bearer_first a t :
  contains " " a = false →
  split "Bearer " (a +:+ "Bearer " +:+ t) = a :: split "Bearer " t.
Proof.
  induction a as [|x a IH]; intros H.
  - by destruct t.
  - rewrite append_cons, split_step, <- append_cons.
    rewrite (prefix_bearer_after (String x a) t H) by done.
    cbn [contains] in H. apply orb_false_iff in H as [_ H].
    by rewrite (IH H).
Qed.

Lemma occurs_bearer_needs_space a :
  contains " " a = false → occurs "Bearer " a = false.
Proof.
  induction a as [|x a IH]; intros H; [reflexivity|].
  cbn [occurs]. rewrite (prefix_bearer_needs_space _ H).
  cbn [contains] in H. apply orb_false_iff in H as [_ H]. by rewrite (IH H).
Qed.

(** X17. Of a header with a second ["Bearer "] only the text between the
    first and the second is verified: for a token without a space, whatever
    follows a second ["Bearer "] has no influence on the result. *)
Theorem second_bearer_ignored sdk a t :
  contains " " a = false →
  bearerToken ("Bearer " +:+ a +:+ "Bearer " +:+ t) = Some a
  ∧ verifyAuthToken sdk
      {| authorization := Some ("Bearer " +:+ a +:+ "Bearer " +:+ t) |}
    = verifyAuthToken sdk {| authorization := Some ("Bearer " +:+ a) |}.
Proof.
  intros H.
  assert (E1 : bearerToken ("Bearer " +:+ a +:+ "Bearer " +:+ t) = Some a)
    by (by rewrite bearerToken_prefix, split_bearer_first).
  assert (E2 : bearerToken ("Bearer " +:+ a) = Some a)
    by (apply bearerToken_plain; by apply occurs_bearer_needs_space).
  split; [done|]. rewrite !verifyAuthToken_verdict. unfold verdict.
  cbn [authorization]. by rewrite !startsWith_bearer, E1, E2.
Qed.

Lemma second_bearer_ignored_witness :
  verifyAuthToken (accepting jwt "user-1")
    {| authorization := Some ("Bearer " +:+ jwt +:+ "Bearer forged") |}
  = Resolved (Some "user-1").
Proof.
  exact (eq_trans
           (proj2 (second_bearer_ignored (accepting jwt "user-1") jwt "forged"
                     eq_refl))
           eq_refl).
Defined.

End ServerAuthMoreFacts.

(* ===================================================================== *)
(** * Properties of the station form                                       *)
(* ===================================================================== *)

Module StationFormFacts.
Import PlainText TextSpec JSText StationForm StationFormSpec.
Import RouteMatrixMoreSpec RouteMatrixMoreFacts.

(** ** Texts of digits *)

Lemma length_append a b :
  String.length (a +:+ b) = String.length a + String.length b.
Proof.
  induction a as [|x a IH]; rewrite ?append_nil_l, ?append_cons; [done|].
  simpl. by rewrite IH.
Qed.

Lemma allChars_append p a b :
  allChars p (a +:+ b) = allChars p a && allChars p b.
Proof.
  induction a as [|x a IH]; rewrite ?append_nil_l, ?append_cons; [done|].
  cbn [allChars]. by rewrite IH, andb_assoc.
Qed.

Lemma keepOnly_allChars keep s : allChars keep (keepOnly keep s) = true.
Proof.
  induction s as [|c s IH]; [done|]. cbn [keepOnly].
  destruct (keep c) eqn:Hc; [|done]. cbn [allChars]. by rewrite Hc.
Qed.

Lemma keepOnly_id keep s : allChars keep s = true → keepOnly keep s = s.
Proof.
  induction s as [|c s IH]; [done|]. cbn [allChars keepOnly].
  intros [Hc Hs]%andb_true_iff. by rewrite Hc, (IH Hs).
Qed.

Lemma digit_not_slash c : isDigit c = true → Ascii.eqb c "/" = false.
Proof.
  intros H. apply Ascii.eqb_neq. intros ->. vm_compute in H. discriminate H.
Qed.

Lemma digits_no_slash s : digits s = true → contains "/" s = false.
Proof.
  unfold digits. induction s as [|c s IH]; [done|]. cbn [allChars contains].
  intros [Hc Hs]%andb_true_iff. by rewrite (digit_not_slash c Hc), (IH Hs).
Qed.

Lemma digits_keep s : digits s = true → allChars keepDateCharacter s = true.
Proof.
  unfold digits. induction s as [|c s IH]; [done|]. cbn [allChars].
  intros [Hc Hs]%andb_true_iff. unfold keepDateCharacter at 1.
  by rewrite Hc, (IH Hs).
Qed.

Lemma split_slash_digits s :
  allChars keepDateCharacter s = true →
  forallb digits (split "/" s) = true.
Proof.
  induction s as [|c s IH]; [done|]. cbn [allChars].
  intros [Hc Hs]%andb_true_iff. specialize (IH Hs).
  rewrite split_char_step. destruct (Ascii.eqb c "/") eqn:E; [done|].
  unfold keepDateCharacter in Hc. rewrite E, orb_false_r in Hc.
  destruct (split "/" s) as [|piece pieces]; simpl in *.
  - unfold digits. simpl. by rewrite Hc.
  - apply andb_true_iff in IH as [H1 H2]. unfold digits in *.
    cbn [allChars]. by rewrite Hc, H1, H2.
Qed.

Lemma slice0_digits n s : digits s = true → digits (slice0 n s) = true.
Proof.
  unfold digits. revert s. induction n as [|n IH]; intros [|c s]; try done.
  cbn [allChars slice0]. intros [Hc Hs]%andb_true_iff. by rewrite Hc, IH.
Qed.

Lemma slice0_length n s : String.length (slice0 n s) ≤ n.
Proof.
  revert s. induction n as [|n IH]; intros [|c s]; simpl; try lia.
  specialize (IH s). lia.
Qed.

Lemma slice0_id n s : String.length s ≤ n → slice0 n s = s.
Proof.
  revert s. induction n as [|n IH]; intros [|c s]; simpl; try done; try lia.
  intros H. rewrite IH; [done|lia].
Qed.

Lemma slice0_truthy n s :
  truthy_text s = true → truthy_text (slice0 (S n) s) = true.
Proof. by destruct s. Qed.

(** The day or month after the limit has been applied. *)
Lemma clamp_ok limit (text part : string) :
  digits part = true → String.length part ≤ 2 →
  digits text = true → String.length text ≤ 2 →
  exceeds (parseInt text) limit = false →
  let kept := if exceeds (parseInt part) limit then text else part in
  digits kept = true ∧ String.length kept ≤ 2
  ∧ exceeds (parseInt kept) limit = false
  ∧ (truthy_text part = true → truthy_text text = true →
     truthy_text kept = true).
Proof.
  intros. simpl. destruct (exceeds (parseInt part) limit) eqn:E; done.
Qed.

(** ** The date field *)

Lemma dateText_two d m : dateText [d; m] = d +:+ "/" +:+ m.
Proof. reflexivity. Qed.

Lemma dateText_three d m y : dateText [d; m; y] = d +:+ "/" +:+ m +:+ "/" +:+ y.
Proof. unfold dateText, join. simpl. by rewrite !append_assoc. Qed.

Lemma okDay_intro d :
  truthy_text d = true → digits d = true → String.length d ≤ 2 →
  exceeds (parseInt d) 31 = false → okDay d = true.
Proof.
  intros H1 H2 H3 H4. unfold okDay. rewrite H1, H2, H4. simpl.
  rewrite andb_true_r. by apply Nat.leb_le.
Qed.

Lemma okMonth_intro m :
  digits m = true → String.length m ≤ 2 →
  exceeds (parseInt m) 12 = false → okMonth m = true.
Proof.
  intros H2 H3 H4. unfold okMonth. rewrite H2, H4. simpl.
  rewrite andb_true_r. by apply Nat.leb_le.
Qed.

Lemma okDay_elim d :
  okDay d = true →
  truthy_text d = true ∧ digits d = true ∧ String.length d ≤ 2
  ∧ exceeds (parseInt d) 31 = false.
Proof.
  unfold okDay. rewrite !andb_true_iff, negb_true_iff, Nat.leb_le. tauto.
Qed.

Lemma okMonth_elim m :
  okMonth m = true →
  digits m = true ∧ String.length m ≤ 2 ∧ exceeds (parseInt m) 12 = false.
Proof.
  unfold okMonth. rewrite !andb_true_iff, negb_true_iff, Nat.leb_le. tauto.
Qed.

Lemma okYear_elim y :
  okYear y = true → digits y = true ∧ String.length y ≤ 4.
Proof. unfold okYear. rewrite !andb_true_iff, Nat.leb_le. tauto. Qed.

(** What [formatDate] returns is always the text of well-formed pieces. *)
Lemma formatDate_shape typed :
  ∃ pieces, formatDate typed = dateText pieces ∧ wellFormed pieces = true.
Proof.
  unfold formatDate.
  pose proof (split_slash_digits _ (keepOnly_allChars keepDateCharacter typed))
    as Hd.
  destruct (split "/" (keepOnly keepDateCharacter typed)) as [|p0 rest];
    [by exists []|].
  cbn [forallb] in Hd. apply andb_true_iff in Hd as [H0 Hrest].
  destruct (truthy_text p0) eqn:Ht; [|by exists []].
  destruct (clamp_ok 31 "31" (slice0 2 p0) (slice0_digits 2 p0 H0)
              (slice0_length 2 p0) eq_refl (le_n 2) eq_refl)
    as (Dd & Dl & De & Dt).
  specialize (Dt (slice0_truthy 1 p0 Ht) eq_refl).
  pose proof (okDay_intro _ Dt Dd Dl De) as Hday.
  destruct rest as [|p1 rest]; [by eexists [_]|].
  cbn [forallb] in Hrest. apply andb_true_iff in Hrest as [H1 Hrest].
  destruct (clamp_ok 12 "12" (slice0 2 p1) (slice0_digits 2 p1 H1)
              (slice0_length 2 p1) eq_refl (le_n 2) eq_refl)
    as (Md & Ml & Me & _).
  pose proof (okMonth_intro _ Md Ml Me) as Hmonth.
  destruct rest as [|p2 rest].
  - eexists [_; _]. split; [by rewrite dateText_two|].
    cbn [wellFormed]. by rewrite Hday, Hmonth.
  - cbn [forallb] in Hrest. apply andb_true_iff in Hrest as [H2 _].
    eexists [_; _; _]. split; [by rewrite dateText_three|].
    cbn [wellFormed]. rewrite Hday, Hmonth. cbn [andb]. unfold okYear.
    rewrite (slice0_digits 4 p2 H2). cbn [andb].
    apply Nat.leb_le, slice0_length.
Qed.

Lemma split_dateText pieces :
  pieces ≠ [] → forallb digits pieces = true →
  split "/" (dateText pieces) = pieces.
Proof.
  intros Hne Hd. destruct pieces as [|p rest]; [done|].
  cbn [forallb] in Hd. apply andb_true_iff in Hd as [Hp Hrest].
  unfold dateText, join.
  rewrite (split_fold "/" rest p).
  - by rewrite (split_char_plain "/" p (digits_no_slash p Hp)).
  - rewrite forallb_forall in Hrest. apply forallb_forall.
    intros q Hq. by rewrite (digits_no_slash q (Hrest q Hq)).
Qed.

Lemma wellFormed_digits pieces :
  wellFormed pieces = true → forallb digits pieces = true.
Proof.
  destruct pieces as [|d [|m [|y [|? ?]]]]; cbn [wellFormed forallb];
    try done.
  - intros (? & ? & _)%okDay_elim. by rewrite andb_true_r.
  - intros [(? & Hd & _)%okDay_elim (Hm & _)%okMonth_elim]%andb_true_iff.
    by rewrite Hd, Hm.
  - rewrite !andb_true_iff.
    intros [[(? & Hd & _)%okDay_elim (Hm & _)%okMonth_elim] (Hy & _)%okYear_elim].
    by rewrite Hd, Hm, Hy.
Qed.

Lemma dateText_keep pieces :
  forallb digits pieces = true →
  allChars keepDateCharacter (dateText pieces) = true.
Proof.
  unfold dateText, join. destruct pieces as [|p rest]; [done|].
  cbn [forallb]. intros [Hp Hrest]%andb_true_iff.
  apply digits_keep in Hp. revert p Hp.
  induction rest as [|q rest IH]; intros p Hp; [done|]. simpl.
  cbn [forallb] in Hrest. apply andb_true_iff in Hrest as [Hq Hrest].
  apply IH; [done|]. rewrite !allChars_append, Hp. simpl.
  by apply digits_keep.
Qed.

(** Well-formed pieces are left as they are. *)
Lemma formatDate_fixed pieces :
  wellFormed pieces = true → formatDate (dateText pieces) = dateText pieces.
Proof.
  intros Hw. pose proof (wellFormed_digits pieces Hw) as Hd.
  unfold formatDate. rewrite (keepOnly_id _ _ (dateText_keep pieces Hd)).
  destruct pieces as [|d rest]; [done|].
  rewrite (split_dateText (d :: rest)) by done.
  destruct rest as [|m [|y [|? ?]]]; cbn [wellFormed] in Hw; try done.
  - apply okDay_elim in Hw as (Ht & _ & Hl & He).
    by rewrite Ht, (slice0_id 2 d Hl), He.
  - apply andb_true_iff in Hw as [(Ht & _ & Hl & He)%okDay_elim
                                   (_ & Hl' & He')%okMonth_elim].
    by rewrite Ht, (slice0_id 2 d Hl), He, (slice0_id 2 m Hl'), He'.
  - rewrite !andb_true_iff in Hw.
    destruct Hw as [[(Ht & _ & Hl & He)%okDay_elim (_ & Hl' & He')%okMonth_elim]
                      (_ & Hl'')%okYear_elim].
    rewrite Ht, (slice0_id 2 d Hl), He, (slice0_id 2 m Hl'), He',
      (slice0_id 4 y Hl''). by rewrite dateText_three.
Qed.

(** X18. Whatever is typed, the text put in the date field consists of
    digits and slashes, is at most ten characters long, and is always handed
    to the form: the length test of line 569 never holds an update back. *)
Theorem date_text_always_accepted typed :
  allChars keepDateCharacter (formatDate typed) = true
  ∧ String.length (formatDate typed) ≤ 10
  ∧ onDateChange typed = Some (formatDate typed).
Proof.
  destruct (formatDate_shape typed) as (pieces & E & Hw).
  assert (Hlen : String.length (formatDate typed) ≤ 10).
  { rewrite E. destruct pieces as [|d [|m [|y [|? ?]]]];
      cbn [wellFormed] in Hw; try done.
    - simpl. lia.
    - apply okDay_elim in Hw as (_ & _ & Hl & _). simpl. lia.
    - apply andb_true_iff in Hw as [(_ & _ & Hl & _)%okDay_elim
                                     (_ & Hl' & _)%okMonth_elim].
      rewrite dateText_two, !length_append. simpl. lia.
    - rewrite !andb_true_iff in Hw.
      destruct Hw as [[(_ & _ & Hl & _)%okDay_elim (_ & Hl' & _)%okMonth_elim]
                        (_ & Hl'')%okYear_elim].
      rewrite dateText_three, !length_append. simpl. lia. }
  split; [|split; [done|]].
  - rewrite E. by apply dateText_keep, wellFormed_digits.
  - unfold onDateChange. by apply Nat.leb_le in Hlen as ->.
Qed.

(** X19. In the text put in the date field the day never exceeds 31 and
    the month never exceeds 12, the day and the month have at most two
    digits and the year at most four, and nothing follows the year. *)
Theorem date_parts_bounded typed :
  let parts := split "/" (formatDate typed) in
  length parts ≤ 3
  ∧ (∀ day, parts !! 0%nat = Some day →
       String.length day ≤ 2 ∧ ∀ n, parseInt day = Some n → (n ≤ 31)%Z)
  ∧ (∀ month, parts !! 1%nat = Some month →
       String.length month ≤ 2 ∧ ∀ n, parseInt month = Some n → (n ≤ 12)%Z)
  ∧ (∀ year, parts !! 2%nat = Some year → String.length year ≤ 4).
Proof.
  assert (Hex : ∀ text limit n,
            exceeds (parseInt text) limit = false →
            parseInt text = Some n → (n ≤ limit)%Z).
  { intros text limit n He Hn. rewrite Hn in He. simpl in He.
    by apply Z.ltb_ge in He. }
  destruct (formatDate_shape typed) as (pieces & E & Hw). rewrite E.
  destruct pieces as [|d rest].
  { change (split "/" (dateText [])) with [""]. cbn.
    split; [lia|]. split; [|split; intros ? [=]].
    intros day [= <-]. split; [simpl; lia | intros n [=]]. }
  rewrite (split_dateText (d :: rest)); [|done|by apply wellFormed_digits].
  destruct rest as [|m [|y [|? ?]]]; cbn [wellFormed] in Hw; try done; cbn.
  - apply okDay_elim in Hw as (_ & _ & Hl & He).
    split; [lia|]. split; [|split; intros ? [=]].
    intros day [= <-]. split; [done|]. intros n. by apply Hex.
  - apply andb_true_iff in Hw as [(_ & _ & Hl & He)%okDay_elim
                                   (_ & Hl' & He')%okMonth_elim].
    split; [lia|]. split; [|split; [|intros ? [=]]].
    + intros day [= <-]. split; [done|]. intros n. by apply Hex.
    + intros month [= <-]. split; [done|]. intros n. by apply Hex.
  - rewrite !andb_true_iff in Hw.
    destruct Hw as [[(_ & _ & Hl & He)%okDay_elim (_ & Hl' & He')%okMonth_elim]
                      (_ & Hl'')%okYear_elim].
    split; [lia|]. split; [|split].
    + intros day [= <-]. split; [done|]. intros n. by apply Hex.
    + intros month [= <-]. split; [done|]. intros n. by apply Hex.
    + by intros year [= <-].
Qed.

(** X20. A complete date whose day is at most 31 and whose month is at
    most 12 is left as it was typed. *)
Theorem complete_date_kept d m y :
  okDay d = true → okMonth m = true → okYear y = true →
  formatDate (d +:+ "/" +:+ m +:+ "/" +:+ y) = d +:+ "/" +:+ m +:+ "/" +:+ y.
Proof.
  intros Hd Hm Hy. rewrite <- dateText_three. apply formatDate_fixed.
  cbn [wellFormed]. by rewrite Hd, Hm, Hy.
Qed.

Lemma complete_date_kept_witness :
  formatDate "31/12/2025" = "31/12/2025" ∧ formatDate "07/3/25" = "07/3/25".
Proof.
  split.
  - exact (complete_date_kept "31" "12" "2025" eq_refl eq_refl eq_refl).
  - exact (complete_date_kept "07" "3" "25" eq_refl eq_refl eq_refl).
Defined.

(** X21. Formatting is idempotent: the text put in the field is left
    unchanged when it passes through the handler again. *)
Theorem formatDate_idempotent typed :
  formatDate (formatDate typed) = formatDate typed.
Proof.
  destruct (formatDate_shape typed) as (pieces & -> & Hw).
  by apply formatDate_fixed.
Qed.

(** X22. The field is emptied exactly when what is typed holds no digit
    and no slash, or when the first of these is a slash. *)
Theorem date_emptied typed :
  formatDate typed = ""
  ↔ keepOnly keepDateCharacter typed = ""
    ∨ String.prefix "/" (keepOnly keepDateCharacter typed) = true.
Proof.
  unfold formatDate.
  destruct (keepOnly keepDateCharacter typed) as [|c rest] eqn:Ek.
  { split; [by left | done]. }
  rewrite split_char_step, prefix_char.
  destruct (Ascii.eqb c "/") eqn:Ec.
  { split; [by right | done]. }
  split; [|by intros [|]].
  intros H. exfalso. revert H.
  assert (Hday : ∀ piece,
            ∃ x tail, (if exceeds (parseInt (slice0 2 (String c piece))) 31
                       then "31" else slice0 2 (String c piece))
                      = String x tail).
  { intros piece. destruct (exceeds _ _); by do 2 eexists. }
  destruct (split "/" rest) as [|piece pieces].
  - cbn [truthy_text]. destruct (Hday "") as (x & tail & ->). done.
  - change (truthy_text (String c piece)) with true. cbv iota.
    destruct (Hday piece) as (x & tail & ->).
    destruct pieces as [|p1 [|p2 ?]]; done.
Qed.

Example date_examples :
  formatDate "45" = "31" ∧ formatDate "12/13" = "12/12"
  ∧ formatDate "1a2-/0x9/20251" = "12/09/2025"
  ∧ formatDate "/12" = "" ∧ formatDate "3/" = "3/"
  ∧ formatDate "1/2/3/4" = "1/2/3" ∧ formatDate "00/00/0000" = "00/00/0000".
Proof. repeat split; reflexivity. Qed.

(** ** The suggestions *)

Lemma asciiText_append a b :
  asciiText (a +:+ b) = asciiText a && asciiText b.
Proof.
  induction a as [|x a IH]; rewrite ?append_nil_l, ?append_cons; [done|].
  cbn [asciiText]. by rewrite IH, andb_assoc.
Qed.

Lemma mapChars_append f a b :
  mapChars f (a +:+ b) = mapChars f a +:+ mapChars f b.
Proof.
  induction a as [|x a IH]; rewrite ?append_nil_l, ?append_cons; [done|].
  cbn [mapChars]. by rewrite IH.
Qed.

(** A text whose characters map to [x] followed by [y] falls into two texts
    that map to [x] and to [y]. *)
Lemma mapChars_split f s x y :
  mapChars f s = x +:+ y →
  ∃ a b, s = a +:+ b ∧ mapChars f a = x ∧ mapChars f b = y.
Proof.
  revert s. induction x as [|c x IH]; intros s;
    rewrite ?append_nil_l, ?append_cons.
  - intros H. by exists "", s.
  - destruct s as [|k s]; [done|]. cbn [mapChars]. intros [= Hc H].
    destruct (IH s H) as (a & b & -> & <- & <-).
    exists (String k a), b. cbn [mapChars]. by rewrite Hc.
Qed.

Lemma lower_capital c : lower (capital c) = lower c.
Proof. destruct c as [[] [] [] [] [] [] [] []]; reflexivity. Qed.

Lemma capital_lower c : capital (lower c) = capital c.
Proof. destruct c as [[] [] [] [] [] [] [] []]; reflexivity. Qed.

(** Two texts have the same lower case exactly when they have the same
    capitals. *)
Lemma same_lower_same_capitals a b :
  mapChars lower a = mapChars lower b
  ↔ mapChars capital a = mapChars capital b.
Proof.
  revert b. induction a as [|x a IH]; intros [|y b]; cbn [mapChars]; try done.
  split; intros [= Hc H].
  - f_equal; [|by apply IH].
    by rewrite <- (capital_lower x), Hc, capital_lower.
  - f_equal; [|by apply IH].
    by rewrite <- (lower_capital x), Hc, lower_capital.
Qed.

Lemma isSpace_whiteSpace c : isSpace c = existsb (Ascii.eqb c) whiteSpace.
Proof. destruct c as [[] [] [] [] [] [] [] []]; reflexivity. Qed.

Lemma whiteSpace_capital c :
  existsb (Ascii.eqb (capital c)) whiteSpace = existsb (Ascii.eqb c) whiteSpace.
Proof. destruct c as [[] [] [] [] [] [] [] []]; reflexivity. Qed.

Lemma blank_capitals s : blank (mapChars capital s) = blank s.
Proof.
  unfold blank. induction s as [|c s IH]; [done|].
  cbn [mapChars allChars]. by rewrite whiteSpace_capital, IH.
Qed.

Lemma blank_append a b : blank (a +:+ b) = blank a && blank b.
Proof. apply allChars_append. Qed.

Lemma trimEnd_head c rest :
  isSpace c = false → ∃ tail, trimEnd (String c rest) = String c tail.
Proof.
  intros Hc. cbn [trimEnd]. destruct (trimEnd rest); rewrite ?Hc; by eexists.
Qed.

(** Trimming leaves something exactly when the text is not blank. *)
Lemma trimmed_blank s : truthy_text (trimEnd (trimStart s)) = negb (blank s).
Proof.
  unfold blank. induction s as [|c s IH]; [done|].
  cbn [trimStart allChars]. rewrite <- isSpace_whiteSpace.
  destruct (isSpace c) eqn:Hc; [done|].
  by destruct (trimEnd_head c s Hc) as (tail & ->).
Qed.

Lemma prefix_spec p s :
  String.prefix p s = true ↔ ∃ rest, s = p +:+ rest.
Proof.
  revert s. induction p as [|a p IH]; intros s.
  - rewrite prefix_empty. split; [by exists s | done].
  - destruct s as [|b s]; cbn [String.prefix].
    + split; [done | by intros (rest & [=])].
    + destruct (ascii_dec a b) as [->|Hne].
      * rewrite IH. split; intros (rest & E); exists rest.
        -- by rewrite E.
        -- rewrite append_cons in E. by injection E.
      * split; [done|]. intros (rest & E). rewrite append_cons in E.
        injection E as -> _. done.
Qed.

(** [includes]: the part stands somewhere in the text. *)
Lemma includes_spec s part :
  includes s part = true ↔ ∃ before after, s = before +:+ part +:+ after.
Proof.
  induction s as [|c s IH]; cbn [includes].
  - rewrite prefix_spec. split.
    + intros (rest & E). by exists "", rest.
    + intros ([|x before] & after & E); [by exists after | done].
  - rewrite orb_true_iff, prefix_spec, IH. split.
    + intros [(rest & E)|(before & after & E)].
      * by exists "", rest.
      * exists (String c before), after. by rewrite append_cons, E.
    + intros ([|x before] & after & E).
      * left. by exists after.
      * right. rewrite append_cons in E. injection E as -> E.
        by exists before, after.
Qed.

Lemma includes_append_l s p q :
  includes s (p +:+ q) = true → includes s p = true.
Proof.
  rewrite !includes_spec. intros (before & after & ->).
  exists before, (q +:+ after). by rewrite append_assoc.
Qed.

Lemma filter_sublist {A} (f : A → bool) (l : list A) :
  sublist (List.filter f l) l.
Proof.
  induction l as [|x l IH]; simpl; [constructor|].
  destruct (f x); by constructor.
Qed.

Lemma filter_filter_implied {A} (f g : A → bool) (l : list A) :
  (∀ x, f x = true → g x = true) →
  List.filter f (List.filter g l) = List.filter f l.
Proof.
  intros H. induction l as [|x l IH]; simpl; [done|].
  destruct (g x) eqn:Hg; simpl.
  - by rewrite IH.
  - destruct (f x) eqn:Hf; [|done]. by rewrite (H x Hf) in Hg.
Qed.

Lemma filterWith_total {A} (keep : A → option bool) (f : A → bool) (l : list A) :
  (∀ x, In x l → keep x = Some (f x)) →
  filterWith keep l = Some (List.filter f l).
Proof.
  induction l as [|x l IH]; intros H; [done|]. cbn [filterWith List.filter].
  rewrite (H x) by (by left). rewrite IH by (intros y Hy; apply H; by right).
  simpl. by destruct (f x).
Qed.

(** The test on one suggestion, for ASCII texts. *)
Definition contained {A : Type} (getSuggestionText : A → string)
    (value : string) (item : A) : bool :=
  includes (mapChars lower (getSuggestionText item)) (mapChars lower value).

(** On ASCII texts the filter has an answer, and it is this one. *)
Lemma filteredSuggestions_ascii {A : Type} (getSuggestionText : A → string)
    (value : string) (showSuggestions : bool) (suggestions : list A) :
  asciiText value = true →
  (∀ item, In item suggestions → asciiText (getSuggestionText item) = true) →
  filteredSuggestions getSuggestionText value showSuggestions suggestions
  = Some (if negb (blank value) && showSuggestions
          then List.filter (contained getSuggestionText value) suggestions
          else []).
Proof.
  intros Hvalue Hitems. unfold filteredSuggestions, trim. rewrite Hvalue.
  cbn [mbind option_bind]. rewrite trimmed_blank.
  destruct (negb (blank value) && showSuggestions); [|done].
  apply filterWith_total. intros item Hin. unfold toLowerCase.
  by rewrite (Hitems item Hin), Hvalue.
Qed.

(** X23. For a typed value and suggestions in ASCII, the suggestions shown
    are those of the list, in its order, whose text has a part that is the
    typed value, letter case apart; none is shown while the list is hidden or
    while only white space has been typed. *)
Theorem suggestions_characterised {A : Type} (getSuggestionText : A → string)
    (value : string) (showSuggestions : bool) (suggestions : list A) :
  asciiText value = true →
  (∀ item, In item suggestions → asciiText (getSuggestionText item) = true) →
  ∃ shown,
    filteredSuggestions getSuggestionText value showSuggestions suggestions
    = Some shown
    ∧ sublist shown suggestions
    ∧ (∀ item,
         In item shown
         ↔ showSuggestions = true ∧ blank value = false ∧ In item suggestions
           ∧ ∃ before part after,
               getSuggestionText item = before +:+ part +:+ after
               ∧ upperCaseOf part = upperCaseOf value).
Proof.
  intros Hvalue Hitems.
  rewrite filteredSuggestions_ascii by done. eexists. split; [done|].
  destruct (blank value), showSuggestions; cbn [negb andb];
    try (split; [apply sublist_nil_l|];
         intros item; split; [done | by intros (? & ? & _)]).
  split; [apply filter_sublist|]. intros item.
  rewrite filter_In. unfold contained. rewrite includes_spec. split.
  - intros (Hin & x & y & E). do 3 (split; [done|]).
    destruct (mapChars_split _ _ _ _ E) as (before & rest & Etext & _ & Erest).
    destruct (mapChars_split _ _ _ _ Erest) as (part & after & -> & Epart & _).
    exists before, part, after. split; [done|].
    pose proof (Hitems item Hin) as Hascii.
    rewrite Etext, !asciiText_append in Hascii.
    apply andb_true_iff in Hascii as [_ [Hpart _]%andb_true_iff].
    unfold upperCaseOf. rewrite Hpart, Hvalue. f_equal.
    by apply same_lower_same_capitals.
  - intros (_ & _ & Hin & before & part & after & E & Hup).
    split; [done|]. unfold upperCaseOf in Hup. rewrite Hvalue in Hup.
    destruct (asciiText part); [|done]. injection Hup as Hup.
    apply same_lower_same_capitals in Hup.
    exists (mapChars lower before), (mapChars lower after).
    by rewrite E, !mapChars_append, Hup.
Qed.

Lemma suggestions_characterised_witness :
  filteredSuggestions (fun n => n) "AL" true ["Ali"; "Salma"; "Omar"; "Khalid"]
  = Some ["Ali"; "Salma"; "Khalid"]
  ∧ ∃ shown,
      filteredSuggestions (fun n => n) "AL" true
        ["Ali"; "Salma"; "Omar"; "Khalid"]
      = Some shown
      ∧ sublist shown ["Ali"; "Salma"; "Omar"; "Khalid"]
      ∧ In "Khalid" shown.
Proof.
  split; [reflexivity|].
  destruct (suggestions_characterised (fun n : string => n) "AL" true
              ["Ali"; "Salma"; "Omar"; "Khalid"] eq_refl) as (shown & E & Hsub & H).
  { intros item [<-|[<-|[<-|[<-|[]]]]]; reflexivity. }
  exists shown. split; [exact E|]. split; [exact Hsub|].
  apply H. do 2 (split; [reflexivity|]). split; [simpl; tauto|].
  by exists "Kh", "al", "id".
Defined.

(** X24. Typing on narrows the suggestions.  For texts in ASCII, once
    something other than white space has been typed, the suggestions for a
    longer text are among those for the shorter one: they are what the filter
    gives for the longer text on the shorter text's suggestions. *)
Theorem suggestions_narrow {A : Type} (getSuggestionText : A → string)
    (value more : string) (showSuggestions : bool) (suggestions : list A) :
  asciiText value = true →
  asciiText more = true →
  (∀ item, In item suggestions → asciiText (getSuggestionText item) = true) →
  blank value = false →
  ∃ shorter shown,
    filteredSuggestions getSuggestionText value showSuggestions suggestions
    = Some shorter
    ∧ filteredSuggestions getSuggestionText (value +:+ more) showSuggestions
        suggestions
      = Some shown
    ∧ filteredSuggestions getSuggestionText (value +:+ more) showSuggestions
        shorter
      = Some shown
    ∧ sublist shown shorter.
Proof.
  intros Hvalue Hmore Hitems Hblank.
  assert (Hlonger : asciiText (value +:+ more) = true)
    by (by rewrite asciiText_append, Hvalue, Hmore).
  assert (Himplied : ∀ item,
            contained getSuggestionText (value +:+ more) item = true →
            contained getSuggestionText value item = true).
  { intros item. unfold contained. rewrite mapChars_append.
    apply includes_append_l. }
  do 2 eexists. split; [by apply filteredSuggestions_ascii|].
  split; [by apply filteredSuggestions_ascii|].
  rewrite blank_append, Hblank. cbn [negb andb].
  destruct showSuggestions.
  - split.
    + rewrite filteredSuggestions_ascii; [|done|].
      * rewrite blank_append, Hblank. cbn [negb andb]. f_equal.
        by apply filter_filter_implied.
      * intros item [Hin _]%filter_In. by apply Hitems.
    + rewrite <- (filter_filter_implied _ _ _ Himplied). apply filter_sublist.
  - split; [|constructor].
    rewrite filteredSuggestions_ascii; [|done|done].
    by rewrite andb_false_r.
Qed.

Lemma suggestions_narrow_witness :
  filteredSuggestions (fun n => n) "al" true ["Ali"; "Salma"; "Omar"; "Khalid"]
  = Some ["Ali"; "Salma"; "Khalid"]
  ∧ ∃ shown,
      filteredSuggestions (fun n => n) "ali" true ["Ali"; "Salma"; "Omar"; "Khalid"]
      = Some shown
      ∧ filteredSuggestions (fun n => n) "ali" true ["Ali"; "Salma"; "Khalid"]
        = Some shown.
Proof.
  split; [reflexivity|].
  destruct (suggestions_narrow (fun n : string => n) "al" "i" true
              ["Ali"; "Salma"; "Omar"; "Khalid"] eq_refl eq_refl)
    as (shorter & shown & Eshorter & E & Eagain & _); [|reflexivity|].
  { intros item [<-|[<-|[<-|[<-|[]]]]]; reflexivity. }
  exists shown. split; [exact E|].
  injection Eshorter as <-. exact Eagain.
Defined.

(** X25. The letter case of what is typed does not matter: for suggestions
    in ASCII, two typed values that are the same ASCII text, letter case
    apart, are given the same suggestions. *)
Theorem suggestions_ignore_case {A : Type} (getSuggestionText : A → string)
    (value value' : string) (showSuggestions : bool) (suggestions : list A) :
  asciiText value = true →
  (∀ item, In item suggestions → asciiText (getSuggestionText item) = true) →
  upperCaseOf value = upperCaseOf value' →
  ∃ shown,
    filteredSuggestions getSuggestionText value showSuggestions suggestions
    = Some shown
    ∧ filteredSuggestions getSuggestionText value' showSuggestions suggestions
      = Some shown.
Proof.
  intros Hvalue Hitems Hup. unfold upperCaseOf in Hup. rewrite Hvalue in Hup.
  destruct (asciiText value') eqn:Hvalue'; [|done]. injection Hup as Hup.
  eexists. split; [by apply filteredSuggestions_ascii|].
  rewrite filteredSuggestions_ascii by done.
  rewrite <- (blank_capitals value), <- (blank_capitals value'), Hup.
  apply same_lower_same_capitals in Hup. unfold contained. by rewrite Hup.
Qed.

Lemma suggestions_ignore_case_witness :
  filteredSuggestions (fun n => n) "Al" true ["Ali"; "Salma"; "Omar"; "Khalid"]
  = Some ["Ali"; "Salma"; "Khalid"]
  ∧ filteredSuggestions (fun n => n) "aL" true ["Ali"; "Salma"; "Omar"; "Khalid"]
    = Some ["Ali"; "Salma"; "Khalid"].
Proof.
  destruct (suggestions_ignore_case (fun n : string => n) "Al" "aL" true
              ["Ali"; "Salma"; "Omar"; "Khalid"] eq_refl) as (shown & E & E').
  { intros item [<-|[<-|[<-|[<-|[]]]]]; reflexivity. }
  { reflexivity. }
  assert (Hshown : shown = ["Ali"; "Salma"; "Khalid"]).
  { apply (inj Some). exact (eq_trans (eq_sym E) eq_refl). }
  split; [exact (eq_trans E (f_equal Some Hshown))
         |exact (eq_trans E' (f_equal Some Hshown))].
Defined.

(** ** The types on offer *)

(** Another row than [current], counted from [from], has the type [t]. *)
Lemma selected_elsewhere (rows : list Autorisation) from current t :
  t ≠ "" →
  includesText
    (List.filter truthy_string
       (mapIndexed
          (fun a idx =>
             if negb (Nat.eqb idx current) then TypeAutorisation a else None)
          from rows)) t = true
  ↔ ∃ (j : nat) a, rows !! j = Some a ∧ from + j ≠ current
                   ∧ TypeAutorisation a = Some t.
Proof.
  intros Ht. revert from. induction rows as [|a rows IH]; intros from.
  - simpl. split; [done|]. by intros (j & a & [=] & _).
  - cbn [mapIndexed List.filter].
    assert (Hhere :
      (∃ (j : nat) b, (a :: rows) !! j = Some b ∧ from + j ≠ current
                      ∧ TypeAutorisation b = Some t)
      ↔ (from ≠ current ∧ TypeAutorisation a = Some t)
        ∨ ∃ (j : nat) b, rows !! j = Some b ∧ S from + j ≠ current
                         ∧ TypeAutorisation b = Some t).
    { split.
      - intros ([|j] & b & Hb & Hj & Hty).
        + injection Hb as <-. left. split; [lia|done].
        + right. exists j, b. split; [done|]. split; [lia|done].
      - intros [[Hj Hty]|(j & b & Hb & Hj & Hty)].
        + exists 0, a. split; [done|]. split; [lia|done].
        + exists (S j), b. split; [done|]. split; [lia|done]. }
    rewrite Hhere, <- IH. clear Hhere IH.
    destruct (Nat.eqb_spec from current) as [->|Hne]; simpl.
    + split; [by right | by intros [[? _]|]].
    + destruct (TypeAutorisation a) as [t'|] eqn:Ea; simpl.
      * destruct (String.eqb_spec t' "") as [->|Hne']; simpl.
        -- split; [by right|]. intros [[_ [= <-]]|]; done.
        -- destruct (String.eqb_spec t' t) as [->|Hne'']; simpl.
           ++ split; [by left | done].
           ++ split; [by right|]. intros [[_ [= ->]]|]; done.
      * split; [by right|]. by intros [[_ [=]]|].
Qed.

(** X26. A type is on offer for a row exactly when it is one of the two
    types and no other row has it; the offer keeps the order création, mise
    en service. *)
Theorem types_on_offer (rows : list Autorisation) currentIndex t :
  sublist (getAvailableAutorisationTypes rows currentIndex) allTypes
  ∧ (In t (getAvailableAutorisationTypes rows currentIndex)
     ↔ In t allTypes
       ∧ ∀ (j : nat) a, rows !! j = Some a → j ≠ currentIndex →
                        TypeAutorisation a ≠ Some t).
Proof.
  unfold getAvailableAutorisationTypes. split; [apply filter_sublist|].
  rewrite filter_In, negb_true_iff. split.
  - intros [Hin Hsel]. split; [done|]. intros j a Ha Hj Hty.
    assert (Ht : t ≠ "").
    { destruct Hin as [<-|[<-|[]]]; discriminate. }
    apply not_true_iff_false in Hsel. apply Hsel.
    apply (selected_elsewhere rows 0 currentIndex t Ht). by exists j, a.
  - intros [Hin Hfree]. split; [done|].
    assert (Ht : t ≠ "").
    { destruct Hin as [<-|[<-|[]]]; discriminate. }
    apply not_true_iff_false.
    intros (j & a & Ha & Hj & Hty)%(selected_elsewhere rows 0 currentIndex t Ht).
    by apply (Hfree j a).
Qed.

(** X27. With at most two rows, which is all the form lets one add, every
    row is offered at least one type. *)
Theorem some_type_on_offer (rows : list Autorisation) currentIndex :
  length rows ≤ 2 → currentIndex < length rows →
  getAvailableAutorisationTypes rows currentIndex ≠ [].
Proof.
  intros Hlen Hidx Hnone.
  assert (Hno : ∀ t, In t allTypes →
            ∃ (j : nat) a, rows !! j = Some a ∧ j ≠ currentIndex
                           ∧ TypeAutorisation a = Some t).
  { intros t Hin.
    assert (Ht : t ≠ "") by (destruct Hin as [<-|[<-|[]]]; discriminate).
    apply (selected_elsewhere rows 0 currentIndex t Ht).
    destruct (includesText _ t) eqn:E; [done|]. exfalso.
    assert (Hin' : In t (getAvailableAutorisationTypes rows currentIndex)).
    { unfold getAvailableAutorisationTypes. apply filter_In.
      split; [done|]. by rewrite E. }
    by rewrite Hnone in Hin'. }
  destruct (Hno "création") as (j & a & Ha & Hj & Hty); [by left|].
  destruct (Hno "mise en service") as (j' & a' & Ha' & Hj' & Hty');
    [by right; left|].
  assert (j = j').
  { apply lookup_lt_Some in Ha, Ha'. lia. }
  subst j'. rewrite Ha in Ha'. injection Ha' as <-.
  rewrite Hty in Hty'. discriminate Hty'.
Qed.

Lemma some_type_on_offer_witness :
  let row t := {| TypeAutorisation := Some t; NumeroAutorisation := None;
                  DateAutorisation := None |} in
  getAvailableAutorisationTypes [row "création"; row "création"] 0 ≠ []
  ∧ getAvailableAutorisationTypes [row "création"; row "création"] 0
    = ["mise en service"].
Proof.
  intros row. split; [|reflexivity].
  apply some_type_on_offer; simpl; lia.
Defined.

End StationFormFacts.

(* ===================================================================== *)
(** * Properties of useArchiveStation                                      *)
(* ===================================================================== *)

Module ArchiveStationFacts.
Import ArchiveStation ArchiveStationSpec.

Lemma after_app {db : Firestore} (s : HookState) (a b : list (effect db)) :
  after s (a ++ b) = after (after s a) b.
Proof. apply fold_left_app. Qed.

Lemma session_snoc db earlier last :
  session db (earlier ++ [last]) = session db earlier ++ (perform db last).2.
Proof.
  unfold session. rewrite map_app, concat_app. simpl. by rewrite app_nil_r.
Qed.

Lemma perform_unfold db r :
  perform db r = changeStationStatus db (stationOf r) (statusOf r).
Proof. by destruct r. Qed.

(** One request: how it settles, what it writes, and the state it leaves. *)
Lemma perform_once db r before :
  (perform db r).1 = settlesAs db r
  ∧ writes (perform db r).2 = option_list (writeFor db r)
  ∧ after before (perform db r).2
    = {| loading := false;
         error := match settlesAs db r with
                  | Fulfilled => None
                  | Failed err =>
                      Some ("Failed to update station status: " +:+ messageOf err)
                  end |}.
Proof.
  rewrite perform_unfold. unfold changeStationStatus, settlesAs, writeFor.
  destruct (doc db (STATIONS db) (stationOf r)) as [reference|err]; [|done].
  by destruct (updateDoc db reference [("Statut", statusOf r)]).
Qed.

Lemma writes_session db requests :
  writes (session db requests) = omap (writeFor db) requests.
Proof.
  induction requests as [|r requests IH]; [done|].
  change (session db (r :: requests))
    with ((perform db r).2 ++ session db requests).
  unfold writes in *. rewrite omap_app, IH.
  destruct (perform_once db r {| loading := false; error := None |})
    as (_ & Hr & _).
  unfold writes in Hr. rewrite Hr.
  destruct (writeFor db r) eqn:E; simpl; by rewrite E.
Qed.

(** X28. A series of requests to archive or restore stations, each settled
    before the next is made.  Each request settles as [doc] and the write
    do, handing on the error thrown.  The writes are, in order, those of the
    requests whose station has a document, one each, of the field [Statut]
    alone; a request for which [doc] throws writes nothing.  Whatever the
    state of the hook was, after the last request [loading] is false, and
    [error] tells how that request settled: empty after a success, the text
    of the failure otherwise. *)
Theorem status_change_settles db (earlier : list request) (last : request)
    (before : HookState) :
  let effects := session db (earlier ++ [last]) in
  (∀ r, (perform db r).1 = settlesAs db r)
  ∧ writes effects = omap (writeFor db) (earlier ++ [last])
  ∧ loading (after before effects) = false
  ∧ (error (after before effects) = None ↔ settlesAs db last = Fulfilled)
  ∧ (∀ err, settlesAs db last = Failed err → message err ≠ "" →
       error (after before effects)
       = Some ("Failed to update station status: " +:+ message err)).
Proof.
  cbn zeta. split; [|split; [apply writes_session|]].
  { intros r. by destruct (perform_once db r before) as (-> & _). }
  rewrite session_snoc, after_app.
  destruct (perform_once db last (after before (session db earlier)))
    as (_ & _ & ->). cbn [loading error].
  split; [done|]. destruct (settlesAs db last) as [|err].
  - split; [done|]. by intros err [=].
  - split; [by split|]. intros err' [= <-] Hm. unfold messageOf.
    by destruct (String.eqb_spec (message err) "").
Qed.

(** A station without a document, here the one of the empty id: nothing is
    written and the error of [doc] is handed on; the next request goes
    through. *)
Example archive_then_restore :
  let invalid := {| name := "FirebaseError";
                    message := "Invalid document reference" |} in
  let db := {| DocumentReference := string;
               STATIONS := "stations";
               doc := fun collection id =>
                 if String.eqb id "" then Throws invalid
                 else Returns (collection +:+ "/" +:+ id);
               updateDoc := fun _ _ => Fulfilled |} in
  archiveStation db ""
  = (Failed invalid,
     [SetLoading true; SetError None;
      SetError (Some "Failed to update station status: Invalid document reference");
      SetLoading false])
  ∧ writes (session db [Archive ""; Archive "s1"; Unarchive "s1"])
    = [("stations/s1", [("Statut", "archivé")]);
       ("stations/s1", [("Statut", "en activité")])]
  ∧ after {| loading := true; error := Some "earlier" |}
      (session db [Archive ""; Archive "s1"; Unarchive "s1"])
    = {| loading := false; error := None |}.
Proof. repeat split; reflexivity. Qed.

End ArchiveStationFacts.
